(** * CineSpaceLocalVideo: the prize-wheel Spinner component

    A shallow embedding of the two [Spinner] React components of the
    repository (the stand-alone component and the copy that lives in
    [src/components/LiquedGalas.tsx]): the item-sequence normalisation
    [data], the landing computation of [spin], and the slice geometry
    [donutSlicePath] / [roundedWedgePath] / [slices].

    Numbers.  A JavaScript number is a binary64 number; every finite one
    is a rational, so numbers are modelled as rationals [Q], and an
    arithmetic operation of the code is the exact operation followed by
    the rounding to the nearest binary64 number ([B64.round], ties to
    even).  This is done for the landing computation of [spin], for the
    inset radii of [donutSlicePath], for the wheel of [LiquedGalas.tsx]
    and for the corner radius of the glass card.  The rest of the slice
    geometry of the stand-alone Spinner is kept in exact arithmetic: its
    angles are halves of whole degrees, exact in binary64, while the
    radii [size / 2 - 6] and [radius * 0.58] and the coordinates are the
    exact values that the code approximates.  Equality of numbers is
    [Qeq] ([==]).  Infinities and [NaN] are not modelled. *)

From Stdlib Require Import QArith Qround Qabs Qpower Lqa ZArith Lia String List.
From Stdlib Require PrimFloat FloatOps SpecFloat.
From stdpp Require Import gmap strings list.

Local Open Scope Q_scope.

(** ** Binary64 rounding *)

Module B64.

(** [2 ^ e] for any integer [e]. *)
Definition pow2 (e : Z) : Q := Qpower 2 e.

(** The binary exponent of a non-zero number: [2 ^ e <= |x| < 2 ^ (e + 1)]. *)
Definition ilog2 (x : Q) : Z :=
  let e := (Z.log2 (Z.abs (Qnum x)) - Z.log2 (Zpos (Qden x)))%Z in
  if Qle_bool (pow2 e) (Qabs x) then e else (e - 1)%Z.

(** Rounding to the nearest integer, a tie going to the even one. *)
Definition rne (y : Q) : Z :=
  let f := Qfloor y in
  match Qcompare (y - inject_Z f) (1 # 2) with
  | Lt => f
  | Gt => (f + 1)%Z
  | Eq => if Z.even f then f else (f + 1)%Z
  end.

(** Rounding to a multiple of [2 ^ q]. *)
Definition round_at (q : Z) (x : Q) : Q := inject_Z (rne (x / pow2 q)) * pow2 q.

(** The exponent of the last place of the binary64 numbers next to [x]:
    53 significant bits, and never below the subnormal spacing. *)
Definition ulp_exp (x : Q) : Z := Z.max (ilog2 x - 52) (-1074).

(** The binary64 number nearest to [x], ties to even.  Overflow is not
    modelled: the result is the one of an unbounded exponent range, the
    binary64 result for magnitudes below [2 ^ 1024]. *)
Definition round (x : Q) : Q :=
  let x := Qred x in
  if Qeq_bool x 0 then 0 else round_at (ulp_exp x) x.

(** The value of a finite primitive float, to compare the model with the
    floating-point unit. *)
Definition of_float (f : PrimFloat.float) : option Q :=
  match FloatOps.Prim2SF f with
  | SpecFloat.S754_zero _ => Some 0
  | SpecFloat.S754_finite s m e =>
      Some (Qred ((if s then -1 else 1) * inject_Z (Zpos m) * pow2 e))
  | _ => None
  end.

End B64.

(** ** JavaScript number primitives *)

Module Js.

(** Rounding toward zero, the integer quotient underlying [%]. *)
Definition trunc (q : Q) : Z :=
  if Qle_bool 0 q then Qfloor q else Qceiling q.

(** [x % y] on finite numbers, [y] non-zero: the remainder has the sign
    of the dividend. *)
Definition rem (x y : Q) : Q := x - y * inject_Z (trunc (x / y)).

(** [Math.floor]. *)
Definition floor (q : Q) : Z := Qfloor q.

(** [Math.min], [Math.max]. *)
Definition min (a b : Q) : Q := if Qle_bool a b then a else b.
Definition max (a b : Q) : Q := if Qle_bool a b then b else a.

(** [Math.round]: the nearest integer, a tie going up. *)
Definition round (q : Q) : Z := Qfloor (q + (1 # 2)).

(** The binary64 operations [+], [-], [*], [/]: the exact result,
    rounded.  ([%] is exact in binary64: the remainder of two binary64
    numbers is one.) *)
Definition add (x y : Q) : Q := B64.round (x + y).
Definition sub (x y : Q) : Q := B64.round (x - y).
Definition mul (x y : Q) : Q := B64.round (x * y).
Definition div (x y : Q) : Q := B64.round (x / y).

(** A decimal literal of the source: the binary64 number nearest to it. *)
Definition lit (q : Q) : Q := B64.round q.

End Js.

Infix "%%" := Js.rem (at level 40, left associativity) : Q_scope.
Infix "[+]" := Js.add (at level 50, left associativity) : Q_scope.
Infix "[-]" := Js.sub (at level 50, left associativity) : Q_scope.
Infix "[*]" := Js.mul (at level 40, left associativity) : Q_scope.
Infix "[/]" := Js.div (at level 40, left associativity) : Q_scope.

(** ** Data model *)

Module Item.
(** [SpinnerItem]: [label] and [color] are optional fields. *)
Record SpinnerItem : Type := mk {
  id : string;
  label : option string;
  color : option string;
}.
End Item.
Abbreviation SpinnerItem := Item.SpinnerItem.

(** An element of [(SpinnerItem | null)[]]: [None] is [null], the empty slot. *)
Definition slot : Type := option SpinnerItem.

(** ** JavaScript arrays as shared, mutable objects

    An array value is a reference into a store; two references that are
    equal denote the same object.  Computations thread the store and fail
    only on a dangling reference, which no JavaScript program can hold. *)

Definition ref : Type := nat.
Abbreviation store := (gmap nat (list slot)).

Definition M (A : Type) : Type := store -> option (A * store).

Definition ret {A} (a : A) : M A := fun s => Some (a, s).
Definition bind {A B} (m : M A) (k : A -> M B) : M B :=
  fun s => match m s with
           | Some (a, s') => k a s'
           | None => None
           end.
Definition fail {A} : M A := fun _ => None.

Declare Scope js_scope.
Delimit Scope js_scope with js.
Notation "'let!' x ':=' m 'in' k" := (bind m (fun x => k))
  (at level 10, x name, m at level 100, k at level 200) : js_scope.
Notation "'do!' m 'in' k" := (bind m (fun _ => k))
  (at level 10, m at level 100, k at level 200) : js_scope.

Module Arr.

(** [a.length] *)
Definition length (a : ref) : M nat :=
  fun s => match s !! a with
           | Some l => Some (List.length l, s)
           | None => None
           end.

(** Allocation of a new array object holding [l]. *)
Definition alloc (l : list slot) : M ref :=
  fun s => let r := fresh (dom s) in Some (r, <[r := l]> s).

(** [[...a]]: a new array with the elements of [a]. *)
Definition spread (a : ref) : M ref :=
  fun s => match s !! a with
           | Some l => alloc l s
           | None => None
           end.

(** [a.push(v)]: appends in place. *)
Definition push (a : ref) (v : slot) : M unit :=
  fun s => match s !! a with
           | Some l => Some (tt, <[a := l ++ [v]]> s)
           | None => None
           end.

(** [a.slice(0, n)]: a new array with the first [n] elements of [a]
    (all of them when [a] is shorter). *)
Definition slice0 (a : ref) (n : nat) : M ref :=
  fun s => match s !! a with
           | Some l => alloc (take n l) s
           | None => None
           end.

(** [l[i]] on the contents of an array: [None] is [undefined] (index out
    of range), [Some None] is the element [null]. *)
Definition get (l : list slot) (i : Z) : option slot :=
  if (i <? 0)%Z then None else l !! Z.to_nat i.

(** [a[i]] *)
Definition read (a : ref) (i : Z) : M (option slot) :=
  fun s => match s !! a with
           | Some l => Some (get l i, s)
           | None => None
           end.

End Arr.

(** A natural number (a length, a count) as a JavaScript number. *)
Definition num (n : nat) : Q := inject_Z (Z.of_nat n).

(** [((x % 360) + 360) % 360], as the code computes it. *)
Definition normalize (x : Q) : Q := ((x %% 360) [+] 360) %% 360.

(** The same expression in exact arithmetic: the representative of [x]
    modulo 360 in [[0, 360)]. *)
Definition norm360 (x : Q) : Q := ((x %% 360) + 360) %% 360.

(** The rotations on which the landing arithmetic is exact in binary64:
    the halves of integers, up to [2 ^ 51] in magnitude. *)
Definition half_integer (x : Q) : Prop := exists k : Z, x == inject_Z k / 2.

Definition exact_range : Q := 2251799813685248.

(** The rotations for which the landing of [spin] is shown, halves of
    integers or not: up to [2 ^ 50] in magnitude. *)
Definition landing_range : Q := 1125899906842624.

(** The multiples of [2 ^ g]: the binary64 numbers of a binade are the
    multiples of its unit in the last place. *)
Definition on_grid (g : Z) (x : Q) : Prop :=
  exists k : Z, x == inject_Z k * B64.pow2 g.

(** ** The animated value and the completion callback *)

(** One invocation of the [onStop] prop. [item] is [None] when the
    argument expression evaluates to [undefined]. *)
Record OnStopCall : Type := {
  selectedIndex : Z;
  item : option slot;
}.

(** What a callback can observe when it runs: the arrays and the content
    of the shared value [rotation] at that moment. *)
Record World : Type := {
  arrays : store;
  rotation_value : Q;
}.

(** [withTiming(toValue, { duration, easing }, callback)]: the target of
    the animation, its duration and what the callback does, given the
    [finished] flag, in the world it runs in ([None]: dangling reference).
    The easing curve only shapes the intermediate frames. *)
Record Timing : Type := {
  toValue : Q;
  duration : Z;
  callback : bool -> World -> option (list OnStopCall);
}.

(** ** Vector paths *)

Module Point.
Record t : Type := mk { x : Q; y : Q }.
End Point.

(** The commands of an SVG path; a path string of the source is the
    sequence of its commands, joined by spaces. *)
Inductive PathCmd : Type :=
| MoveTo (x y : Q)
| ArcTo (rx ry : Q) (xAxisRotation largeArc sweep : Z) (x y : Q)
| LineTo (x y : Q)
| ClosePath.

Record Slice : Type := { path : list PathCmd; fill : string }.

(** The arcs of a path, in order, as (large-arc flag, sweep flag). *)
Definition arc_flags (p : list PathCmd) : list (Z * Z) :=
  flat_map (fun c => match c with
                     | ArcTo _ _ _ la sw _ _ => [(la, sw)]
                     | _ => []
                     end) p.

(** A path is closed when its last command is [Z]. *)
Definition closed (p : list PathCmd) : bool :=
  match last p with
  | Some ClosePath => true
  | _ => false
  end.

(** ** The Spinner component *)

Module Spinner.

Local Open Scope js_scope.

Definition SEGMENTS : nat := 8.
Definition segAngle : Q := 360 / num SEGMENTS.
Definition gapDeg : Q := 4.

(** The [while (filled.length < SEGMENTS) filled.push(null)] loop. *)
Fixpoint pad (fuel : nat) (filled : ref) : M unit :=
  match fuel with
  | O => fail
  | S fuel' =>
      let! len := Arr.length filled in
      if (len <? SEGMENTS)%nat
      then do! Arr.push filled None in pad fuel' filled
      else ret tt
  end.

(** [data]: the item sequence the wheel works with. *)
Definition data (items : ref) : M ref :=
  let! len := Arr.length items in
  if negb (len =? SEGMENTS)%nat then
    let! filled := Arr.spread items in
    do! pad (S SEGMENTS) filled in
    Arr.slice0 filled SEGMENTS
  else ret items.

(** [spin]: [onStop] tells whether the prop is supplied, [data] is the
    memoised array, [random] the value drawn by [Math.random()], and [w]
    the world in which the handler runs.  The product by [SEGMENTS = 8]
    and the quotient [segAngle = 360 / 8] are exact in binary64; the other
    operations round. *)
Definition spin (onStop : bool) (data : ref) (random : Q) (w : World) : Timing :=
  let targetIndex := Js.floor (random * num SEGMENTS) in
  let current := ((rotation_value w %% 360) [+] 360) %% 360 in
  let targetCenterFromZero :=
    inject_Z targetIndex [*] segAngle [+] segAngle [/] 2 in
  let baseDelta := current [+] targetCenterFromZero in
  let spins := 5 in
  let toValue := rotation_value w [-] baseDelta [-] spins [*] 360 in
  {| toValue := toValue;
     duration := 3200;
     callback := fun finished w' =>
       if finished then
         if onStop then
           match Arr.read data targetIndex (arrays w') with
           | Some (it, _) =>
               Some [ {| selectedIndex := targetIndex; item := it |} ]
           | None => None
           end
         else Some []
       else Some [] |}.

Section Geometry.

(** [Math.cos], [Math.sin] and [Math.PI]. *)
Variables (cos sin : Q -> Q) (PI : Q).

Definition polarToCartesian (cx cy r angleDeg : Q) : Point.t :=
  let angle := ((angleDeg - 90) * PI) / 180 in
  {| Point.x := cx + r * cos angle; Point.y := cy + r * sin angle |}.

Definition donutSlicePath (cx cy rOuter rInner startAngle endAngle : Q)
  : list PathCmd :=
  let largeArc := if Qle_bool (endAngle - startAngle) 180 then 0%Z else 1%Z in
  let inset := (rOuter [-] rInner) [*] Js.lit 0.05 in
  let rOuterInset := rOuter [-] inset in
  let rInnerInset := rInner [+] inset in
  let p1 := polarToCartesian cx cy rOuterInset endAngle in
  let p2 := polarToCartesian cx cy rOuterInset startAngle in
  let p3 := polarToCartesian cx cy rInnerInset startAngle in
  let p4 := polarToCartesian cx cy rInnerInset endAngle in
  [ MoveTo (Point.x p1) (Point.y p1);
    ArcTo rOuterInset rOuterInset 0 largeArc 0 (Point.x p2) (Point.y p2);
    LineTo (Point.x p3) (Point.y p3);
    ArcTo rInnerInset rInnerInset 0 largeArc 1 (Point.x p4) (Point.y p4);
    ClosePath ].

Definition roundedWedgePath (cx cy rOuter tipRadius startAngle endAngle : Q)
  : list PathCmd :=
  let largeArc := if Qle_bool (endAngle - startAngle) 180 then 0%Z else 1%Z in
  let pStart := polarToCartesian cx cy rOuter startAngle in
  let pEnd := polarToCartesian cx cy rOuter endAngle in
  let mid := (startAngle + endAngle) / 2 in
  let tipEps := Js.min 8 ((endAngle - startAngle) / 3) in
  let tipRight := polarToCartesian cx cy tipRadius (mid - tipEps / 2) in
  let tipLeft := polarToCartesian cx cy tipRadius (mid + tipEps / 2) in
  [ MoveTo (Point.x pEnd) (Point.y pEnd);
    ArcTo rOuter rOuter 0 largeArc 0 (Point.x pStart) (Point.y pStart);
    LineTo (Point.x tipRight) (Point.y tipRight);
    ArcTo tipRadius tipRadius 0 0 1 (Point.x tipLeft) (Point.y tipLeft);
    LineTo (Point.x pEnd) (Point.y pEnd);
    ClosePath ].

(** Props [size] and [tapered]. *)
Variables (size : Q) (tapered : bool).

Definition radius : Q := size / 2.
Definition innerRadius : Q := radius * 0.58.

(** The angles of the loop body of [slices] at index [i]. *)
Definition segStart (i : nat) : Q := num i * segAngle.
Definition segEnd (i : nat) : Q := segStart i + segAngle.
Definition start (i : nat) : Q := segStart i + gapDeg / 2.
Definition end_ (i : nat) : Q := segEnd i - gapDeg / 2.

(** The object pushed by the loop body of [slices] at index [i]. *)
Definition slice_at (i : nat) : Slice :=
  let fill := if (i mod 2 =? 0)%nat
              then "#F1F2F3"%string else "rgba(131, 145, 161, 1)"%string in
  let path :=
    if tapered
    then roundedWedgePath radius radius (radius - 6)
           (Js.max 6 (radius * 0.06)) (start i) (end_ i)
    else donutSlicePath radius radius (radius - 6) innerRadius
           (start i) (end_ i) in
  {| path := path; fill := fill |}.

(** [slices]: [for (let i = 0; i < 8; i++) arr.push(...)], from [[]]. *)
Definition slices : list Slice :=
  fold_left (fun arr i => arr ++ [slice_at i]) (seq 0 8) [].

(** [ringDotPositions]: [count] is a count of dots; the component passes
    8 (the default) and 9. *)
Definition ringDotPositions (cx cy r : Q) (count : nat) : list Point.t :=
  let step := 360 / num count in
  fold_left (fun pts i =>
               let a := num i * step in
               let p := polarToCartesian cx cy r a in
               pts ++ [p])
            (seq 0 count) [].

(** The angle of the loop body of [iconPositions] at index [i]. *)
Definition midAngle (i : nat) : Q := num i * segAngle + segAngle / 2.

(** The radius on which the icons sit. *)
Definition iconRadius : Q :=
  if tapered then radius * 0.64 else (radius + innerRadius) / 2.

Definition iconPositions : list Point.t :=
  let r := iconRadius in
  fold_left (fun positions i =>
               let p := polarToCartesian radius radius r (midAngle i) in
               positions ++ [p])
            (seq 0 8) [].

Definition CORAL_PAD : Q := 18.
Definition outerSize : Q := size + CORAL_PAD * 2.
Definition outerRadius : Q := outerSize / 2.
Definition coralDotTrackR : Q := outerRadius - CORAL_PAD / 2.

Definition coralDots : list Point.t :=
  ringDotPositions outerRadius outerRadius coralDotTrackR 9.

(** The highlighted wedge overlay: the path drawn when [highlightIndex]
    is a number and non-negative ([None] for the prop: [null]; [None] for
    the result: nothing is drawn). *)
Definition highlight (highlightIndex : option Q) : option (list PathCmd) :=
  match highlightIndex with
  | Some h =>
      if Qle_bool 0 h then
        let segStart := h * segAngle in
        let segEnd := segStart + segAngle in
        let start := segStart + gapDeg / 2 in
        let end_ := segEnd - gapDeg / 2 in
        Some (if tapered
              then roundedWedgePath radius radius (radius - 6)
                     (Js.max 6 (radius * 0.06)) start end_
              else donutSlicePath radius radius (radius - 6) innerRadius
                     start end_)
      else None
  | None => None
  end.

End Geometry.

(** An emoji label placed over the wheel. *)
Module Label.
Record t : Type := mk { left : Q; top : Q; text : string }.
End Label.

(** [it?.label] when it is truthy: the item is not [null] and has a
    non-empty label. *)
Definition shown_label (it : slot) : option string :=
  match it with
  | Some i =>
      match Item.label i with
      | Some l => if String.eqb l "" then None else Some l
      | None => None
      end
  | None => None
  end.

(** The callback of [data.map((it, i) => ...)] that places the labels:
    [Some None] is [null] (nothing to show), [None] is the [TypeError] of
    reading [p.x] when [iconPositions[i]] is [undefined]. *)
Definition label_at (iconPositions : list Point.t) (it : slot) (i : nat)
  : option (option Label.t) :=
  match shown_label it with
  | None => Some None
  | Some l =>
      match iconPositions !! i with
      | Some p => Some (Some {| Label.left := Point.x p - 12;
                                Label.top := Point.y p - 12;
                                Label.text := l |})
      | None => None
      end
  end.

(** [data.map] with that callback, from index [i] on. *)
Fixpoint labels_from (iconPositions : list Point.t) (i : nat) (data : list slot)
  : option (list (option Label.t)) :=
  match data with
  | [] => Some []
  | it :: rest =>
      match label_at iconPositions it i with
      | None => None
      | Some v =>
          match labels_from iconPositions (S i) rest with
          | None => None
          | Some vs => Some (v :: vs)
          end
      end
  end.

Definition labels (iconPositions : list Point.t) (data : list slot)
  : option (list (option Label.t)) :=
  labels_from iconPositions 0 data.

End Spinner.

(** ** The Spinner of [LiquedGalas.tsx] *)

Module LiquedGalas.

Local Open Scope js_scope.

Definition SEGMENTS : nat := 8.
Definition segAngle : Q := 360 / num SEGMENTS.

Fixpoint pad (fuel : nat) (filled : ref) : M unit :=
  match fuel with
  | O => fail
  | S fuel' =>
      let! len := Arr.length filled in
      if (len <? SEGMENTS)%nat
      then do! Arr.push filled None in pad fuel' filled
      else ret tt
  end.

Definition data (items : ref) : M ref :=
  let! len := Arr.length items in
  if negb (len =? SEGMENTS)%nat then
    let! filled := Arr.spread items in
    do! pad (S SEGMENTS) filled in
    Arr.slice0 filled SEGMENTS
  else ret items.

Definition spin (onStop : bool) (data : ref) (random : Q) (w : World) : Timing :=
  let targetIndex := Js.floor (random * num SEGMENTS) in
  let current := ((rotation_value w %% 360) [+] 360) %% 360 in
  let targetCenterFromZero :=
    inject_Z targetIndex [*] segAngle [+] segAngle [/] 2 in
  let baseDelta := current [+] targetCenterFromZero in
  let spins := 5 in
  let toValue := rotation_value w [-] baseDelta [-] spins [*] 360 in
  {| toValue := toValue;
     duration := 3200;
     callback := fun finished w' =>
       if finished then
         if onStop then
           match Arr.read data targetIndex (arrays w') with
           | Some (it, _) =>
               Some [ {| selectedIndex := targetIndex; item := it |} ]
           | None => None
           end
         else Some []
       else Some [] |}.

Section Geometry.

(** [Math.cos], [Math.sin] and [Math.PI]. *)
Variables (cos sin : Q -> Q) (PI : Q).

Definition polarToCartesian (cx cy r angleDeg : Q) : Point.t :=
  let angle := ((angleDeg [-] 90) [*] PI) [/] 180 in
  {| Point.x := cx [+] r [*] cos angle; Point.y := cy [+] r [*] sin angle |}.

Definition donutSlicePath (cx cy rOuter rInner startAngle endAngle : Q)
  : list PathCmd :=
  let largeArc :=
    if Qle_bool (endAngle [-] startAngle) 180 then 0%Z else 1%Z in
  let p1 := polarToCartesian cx cy rOuter endAngle in
  let p2 := polarToCartesian cx cy rOuter startAngle in
  let p3 := polarToCartesian cx cy rInner startAngle in
  let p4 := polarToCartesian cx cy rInner endAngle in
  [ MoveTo (Point.x p1) (Point.y p1);
    ArcTo rOuter rOuter 0 largeArc 0 (Point.x p2) (Point.y p2);
    LineTo (Point.x p3) (Point.y p3);
    ArcTo rInner rInner 0 largeArc 1 (Point.x p4) (Point.y p4);
    ClosePath ].

Variable size : Q.

Definition radius : Q := size [/] 2.
Definition innerRadius : Q := radius [*] Js.lit 0.58.

(** The angles of the loop body of [slices] at index [i]. *)
Definition start (i : nat) : Q := num i [*] segAngle.
Definition end_ (i : nat) : Q := start i [+] segAngle.

Definition slice_at (i : nat) : Slice :=
  let fill := if (i mod 2 =? 0)%nat
              then "#ffffff"%string else "#E8EDF6"%string in
  {| path := donutSlicePath radius radius (radius [-] 4) innerRadius
               (start i) (end_ i);
     fill := fill |}.

Definition slices : list Slice :=
  fold_left (fun arr i => arr ++ [slice_at i]) (seq 0 8) [].

End Geometry.

End LiquedGalas.

(** ** The landing computation for any segment count and spin count

    The arithmetic of [spin] with its two local constants, [SEGMENTS] and
    [spins], left open: as the code computes it in binary64
    ([computeLandingRotation]), and the values of the same expressions in
    exact arithmetic ([landingExact]), to compare it with. *)

Section Landing.

Variables (segments spins : nat).

Definition segAngle64 : Q := 360 [/] num segments.

Definition targetCenter64 (targetIndex : Z) : Q :=
  inject_Z targetIndex [*] segAngle64 [+] segAngle64 [/] 2.

Definition computeLandingRotation (r : Q) (targetIndex : Z) : Q :=
  r [-] (normalize r [+] targetCenter64 targetIndex) [-] num spins [*] 360.

Definition segAngleOf : Q := 360 / num segments.

Definition targetCenter (targetIndex : Z) : Q :=
  inject_Z targetIndex * segAngleOf + segAngleOf / 2.

Definition landingExact (r : Q) (targetIndex : Z) : Q :=
  r - (norm360 r + targetCenter targetIndex) - num spins * 360.

End Landing.

(** The segment a random draw selects: [Math.floor(Math.random() * 8)]. *)
Definition targetIndexOf (random : Q) : Z := Js.floor (random * num 8).

(** The contents the padding loop leaves in [filled], whose contents
    were [l]: a [null] is appended as long as the length is below 8. *)
Definition padded (l : list slot) : list slot :=
  l ++ replicate (8 - List.length l) None.

(** Two items for the examples. *)
Definition item_k : SpinnerItem := Item.mk "k" (Some "key"%string) None.
Definition item_bag : SpinnerItem := Item.mk "bag" (Some "bag"%string) None.

(** The radii of the arcs of a path, in order. *)
Definition arc_radii (p : list PathCmd) : list (Q * Q) :=
  flat_map (fun c => match c with
                     | ArcTo rx ry _ _ _ _ _ => [(rx, ry)]
                     | _ => []
                     end) p.

(** Path commands that end at a point. *)
Definition move_to (p : Point.t) : PathCmd := MoveTo (Point.x p) (Point.y p).
Definition line_to (p : Point.t) : PathCmd := LineTo (Point.x p) (Point.y p).
Definition arc_to (r : Q) (largeArc sweep : Z) (p : Point.t) : PathCmd :=
  ArcTo r r 0 largeArc sweep (Point.x p) (Point.y p).

(** The points a path passes through, in order. *)
Definition vertices (p : list PathCmd) : list Point.t :=
  flat_map (fun c => match c with
                     | MoveTo x y | LineTo x y | ArcTo _ _ _ _ _ x y =>
                         [ {| Point.x := x; Point.y := y |} ]
                     | ClosePath => []
                     end) p.

(** The point of the wheel of diameter [size] at radius [rho] and wheel
    angle [a]: [polarToCartesian(radius, radius, rho, a)]. *)
Definition wheel_point (cos sin : Q -> Q) (PI size rho a : Q) : Point.t :=
  Spinner.polarToCartesian cos sin PI (size / 2) (size / 2) rho a.

(** What the geometry assumes of [Math.cos] and [Math.sin]: on the
    direction [(a - 90) * PI / 180] of a wheel angle of [a] degrees, at
    least 2 degrees away from the axes, they have the signs of cosine and
    sine. *)
Record trig_signs (cos sin : Q -> Q) (PI : Q) : Prop := {
  cos_right : forall a, 2 <= a -> a <= 178 -> 0 < cos ((a - 90) * PI / 180);
  cos_left : forall a, 182 <= a -> a <= 358 -> cos ((a - 90) * PI / 180) < 0;
  sin_down : forall a, 92 <= a -> a <= 268 -> 0 < sin ((a - 90) * PI / 180);
  sin_up_right : forall a, 2 <= a -> a <= 88 -> sin ((a - 90) * PI / 180) < 0;
  sin_up_left : forall a, 272 <= a -> a <= 358 -> sin ((a - 90) * PI / 180) < 0;
}.

(** Where a point lies relative to the centre of the wheel, on a screen
    whose [y] axis points down: in the right half for the segments 0 to
    3, in the left half for 4 to 7; in the lower half for 2 to 5, in the
    upper half, where the pointer is, for 0, 1, 6 and 7. *)
Definition in_quadrant_of (i : nat) (cx cy : Q) (p : Point.t) : Prop :=
  ((i < 4)%nat -> cx < Point.x p)
  /\ ((4 <= i)%nat -> Point.x p < cx)
  /\ ((2 <= i < 6)%nat -> cy < Point.y p)
  /\ ((i < 2 \/ 6 <= i)%nat -> Point.y p < cy).

(** Piecewise-linear functions with the signs of cosine and sine for
    [PI = 3], for the examples. *)
Definition tri_cos (t : Q) : Q := (3 # 2) - Qabs t.
Definition tri_sin (t : Q) : Q := (3 # 2) - Qabs (t - (3 # 2)).

(** ** Spins in sequence *)

(** The world when an animation has run to its natural end: the shared
    value holds the target of the animation. *)
Definition settle (t : Timing) (w : World) : World :=
  {| arrays := arrays w; rotation_value := toValue t |}.

(** One completed spin after another, one draw of [Math.random()] each. *)
Definition spin_all (onStop : bool) (d : ref) (draws : list Q) (w : World)
  : World :=
  fold_left (fun w' u => settle (Spinner.spin onStop d u w') w') draws w.

(** ** The glass card of [LiquedGalas.tsx] *)

Module GlassCard.

Section Window.

(** [Dimensions.get('window').width] *)
Variable width : Q.

Definition CARD_WIDTH : Q := Js.min (width - 32) 640.

Definition edge : Q :=
  Js.min 24 (inject_Z (Js.round (width [*] Js.lit 0.06))).

End Window.

End GlassCard.

(** ** The home screen *)

Module HomeScreen.

Inductive Icon : Type := Film | Folder | ImageIcon | StickyNote.

Record Card : Type := {
  key : string;
  title : string;
  icon : Icon;
  count : Z;
}.

Definition FEATURE_CARDS : list Card :=
  [ {| key := "all"; title := "All Videos"; icon := Film; count := 23 |};
    {| key := "folders"; title := "Folders"; icon := Folder; count := 8 |};
    {| key := "photos"; title := "Photos"; icon := ImageIcon; count := 156 |};
    {| key := "notes"; title := "Notes"; icon := StickyNote; count := 12 |} ].

Definition FILTERS : list string :=
  [ "All Videos"; "Folders"; "Photos"; "Notes" ]%string.

(** [filteredCards], a [switch] on the active filter. *)
Definition filteredCards (activeFilter : string) : list Card :=
  if String.eqb activeFilter "Folders" then
    List.filter (fun c => String.eqb (key c) "folders") FEATURE_CARDS
  else if String.eqb activeFilter "Photos" then
    List.filter (fun c => String.eqb (key c) "photos") FEATURE_CARDS
  else if String.eqb activeFilter "Notes" then
    List.filter (fun c => String.eqb (key c) "notes") FEATURE_CARDS
  else FEATURE_CARDS.

(** The [active] prop of the chips, one per filter, in order. *)
Definition chips_active (activeFilter : string) : list bool :=
  map (fun f => String.eqb activeFilter f) FILTERS.

End HomeScreen.

(** * Properties *)

(** ** Remainder and normalisation *)

Lemma trunc_nonneg q : 0 <= q -> Js.trunc q = Qfloor q.
Proof.
  intros H. unfold Js.trunc.
  destruct (Qle_bool 0 q) eqn:E; [reflexivity|].
  apply Qle_bool_iff in H. congruence.
Qed.

Lemma trunc_neg q : q < 0 -> Js.trunc q = Qceiling q.
Proof.
  intros H. unfold Js.trunc.
  destruct (Qle_bool 0 q) eqn:E; [|reflexivity].
  apply Qle_bool_iff in E. lra.
Qed.

(** The remainder has the sign of the dividend and is smaller than the
    divisor in absolute value. *)
Example rem_sign_of_dividend :
  (-1957.5) %% 360 == -157.5 /\ 1957.5 %% 360 == 157.5.
Proof. split; reflexivity. Qed.

Lemma rem360_nonneg x : 0 <= x -> 0 <= x %% 360 /\ x %% 360 < 360.
Proof.
  intros H. unfold Js.rem.
  rewrite trunc_nonneg by (apply Qle_shift_div_l; lra).
  pose proof (Qfloor_le (x / 360)) as Hf.
  pose proof (Qlt_floor (x / 360)) as Hl.
  rewrite inject_Z_plus in Hl.
  change (inject_Z 1) with 1 in Hl.
  assert (Hx : x == 360 * (x / 360)) by (field; lra).
  revert Hf Hl Hx. generalize (inject_Z (Qfloor (x / 360))) (x / 360).
  intros; split; lra.
Qed.

Lemma rem360_neg x : x < 0 -> -360 < x %% 360 /\ x %% 360 <= 0.
Proof.
  intros H. unfold Js.rem.
  rewrite trunc_neg by (apply Qlt_shift_div_r; lra).
  pose proof (Qle_ceiling (x / 360)) as Hf.
  pose proof (Qceiling_lt (x / 360)) as Hl.
  unfold Z.sub in Hl. rewrite inject_Z_plus, inject_Z_opp in Hl.
  change (inject_Z 1) with 1 in Hl.
  assert (Hx : x == 360 * (x / 360)) by (field; lra).
  revert Hf Hl Hx. generalize (inject_Z (Qceiling (x / 360))) (x / 360).
  intros; split; lra.
Qed.

Lemma rem360_range x : -360 < x %% 360 /\ x %% 360 < 360.
Proof.
  destruct (Qlt_le_dec x 0) as [H|H].
  - destruct (rem360_neg x H). split; lra.
  - destruct (rem360_nonneg x H). split; lra.
Qed.

(** [%] and [norm360] move their argument by whole turns. *)
Lemma rem360_cong x : exists m : Z, x %% 360 == x + 360 * inject_Z m.
Proof.
  exists (- Js.trunc (x / 360))%Z. unfold Js.rem.
  rewrite inject_Z_opp. ring.
Qed.

Lemma norm360_range x : 0 <= norm360 x /\ norm360 x < 360.
Proof.
  unfold norm360. destruct (rem360_range x) as [Hlo Hhi].
  apply rem360_nonneg. lra.
Qed.

Lemma norm360_cong x : exists m : Z, norm360 x == x + 360 * inject_Z m.
Proof.
  unfold norm360.
  destruct (rem360_cong x) as [m1 H1].
  destruct (rem360_cong (x %% 360 + 360)) as [m2 H2].
  exists (m1 + 1 + m2)%Z. rewrite H2, H1, !inject_Z_plus.
  change (inject_Z 1) with 1. ring.
Qed.

(** Two angles of [[0, 360)] that differ by whole turns are equal. *)
Lemma inject_Z_lt_1 (m : Z) : -1 < inject_Z m -> inject_Z m < 1 -> m = 0%Z.
Proof.
  intros Hlo Hhi.
  change (-1) with (inject_Z (-1)) in Hlo. change 1 with (inject_Z 1) in Hhi.
  rewrite <- Zlt_Qlt in Hlo, Hhi. lia.
Qed.

Lemma mod360_unique a b (m : Z) :
  0 <= a < 360 -> 0 <= b < 360 -> a == b + 360 * inject_Z m -> a == b.
Proof.
  intros [Ha Ha'] [Hb Hb'] E.
  assert (m = 0%Z) as -> by (apply inject_Z_lt_1; lra).
  rewrite E. change (inject_Z 0) with 0. ring.
Qed.

Lemma norm360_eq x y (m : Z) :
  0 <= y < 360 -> x == y + 360 * inject_Z m -> norm360 x == y.
Proof.
  intros Hy E. destruct (norm360_cong x) as [k Hk].
  apply (mod360_unique _ _ (k + m)%Z); [apply norm360_range | exact Hy |].
  rewrite Hk, E, inject_Z_plus. ring.
Qed.

(** Normalising twice is normalising once. *)
Lemma norm360_idem x : norm360 (norm360 x) == norm360 x.
Proof.
  apply (norm360_eq _ _ 0); [apply norm360_range|].
  change (inject_Z 0) with 0. ring.
Qed.

Example normalize_samples :
  normalize 7383.5 == 183.5 /\ normalize (-912) == 168.
Proof. split; reflexivity. Qed.

(** ** Binary64 rounding *)

Lemma pow2_pos (e : Z) : 0 < B64.pow2 e.
Proof. apply Qpower_0_lt. reflexivity. Qed.

Lemma pow2_plus (a b : Z) : B64.pow2 (a + b) == B64.pow2 a * B64.pow2 b.
Proof. apply Qpower_plus. discriminate. Qed.

Lemma pow2_Z (n : Z) : (0 <= n)%Z -> B64.pow2 n == inject_Z (2 ^ n).
Proof. intros H. unfold B64.pow2. now rewrite Zpower_Qpower. Qed.

Lemma pow2_lt_inv (a b : Z) : B64.pow2 a < B64.pow2 b -> (a < b)%Z.
Proof. intros H. apply (Qpower_lt_compat_l_inv 2); [exact H | reflexivity]. Qed.

Lemma ilog2_lower (x : Q) : ~ x == 0 -> B64.pow2 (B64.ilog2 x) <= Qabs x.
Proof.
  intros Hx. unfold B64.ilog2.
  set (a := Z.log2 (Z.abs (Qnum x))). set (b := Z.log2 (Zpos (Qden x))).
  destruct (Qle_bool (B64.pow2 (a - b)) (Qabs x)) eqn:E.
  - now apply Qle_bool_iff.
  - destruct x as [n d]. cbn [Qnum Qden] in a, b.
    assert (Hn : (0 < Z.abs n)%Z).
    { destruct n; [|reflexivity|reflexivity]. exfalso. apply Hx. reflexivity. }
    destruct (Z.log2_spec _ Hn) as [Ha _]. fold a in Ha.
    destruct (Z.log2_spec (Zpos d) ltac:(reflexivity)) as [_ Hb]. fold b in Hb.
    assert (Ha0 : (0 <= a)%Z) by apply Z.log2_nonneg.
    assert (Hb0 : (0 <= b)%Z) by apply Z.log2_nonneg.
    replace (a - b - 1)%Z with (a + - (b + 1))%Z by lia.
    rewrite pow2_plus. unfold B64.pow2 at 2. rewrite Qpower_opp.
    fold (B64.pow2 (b + 1)). rewrite !pow2_Z by lia.
    change (Qabs (n # d)) with (Z.abs n # d). rewrite (Qmake_Qdiv (Z.abs n) d).
    change (?x * / ?y) with (x / y).
    replace (b + 1)%Z with (Z.succ b) by lia.
    assert (H2b : 0 < inject_Z (2 ^ Z.succ b)).
    { change 0 with (inject_Z 0). rewrite <- Zlt_Qlt. lia. }
    assert (Hd : 0 < inject_Z (Zpos d)) by reflexivity.
    apply Qle_shift_div_r; [exact H2b|].
    unfold Qdiv. rewrite <- Qmult_assoc, (Qmult_comm (/ _)), Qmult_assoc.
    apply Qle_shift_div_l; [exact Hd|].
    rewrite <- !inject_Z_mult, <- Zle_Qle. nia.
Qed.

Lemma rne_Z (z : Z) : B64.rne (inject_Z z) = z.
Proof.
  unfold B64.rne. rewrite Qfloor_Z.
  assert (E : Qcompare (inject_Z z - inject_Z z) (1 # 2) = Lt).
  { apply (proj1 (Qlt_alt _ _)).
    assert (E0 : inject_Z z - inject_Z z == 0) by ring.
    rewrite E0. reflexivity. }
  now rewrite E.
Qed.

#[export] Instance rne_comp : Proper (Qeq ==> eq) B64.rne.
Proof.
  intros x y E. unfold B64.rne. rewrite (Qfloor_comp _ _ E).
  assert (E2 : x - inject_Z (Qfloor y) == y - inject_Z (Qfloor y))
    by (rewrite E; reflexivity).
  now rewrite (Qcompare_comp _ _ E2 _ _ (Qeq_refl (1 # 2))).
Qed.

#[export] Instance round_comp : Proper (Qeq ==> Qeq) B64.round.
Proof.
  intros x y E. unfold B64.round. now rewrite (Qred_complete _ _ E).
Qed.

(** A number [k * 2 ^ p] with fewer than 54 bits in [k], on or above
    the subnormal spacing, is a binary64 number: rounding leaves it. *)
Lemma round_grid (k p : Z) (x : Q) :
  (Z.abs k < 2 ^ 53)%Z -> (-1074 <= p)%Z ->
  x == inject_Z k * B64.pow2 p ->
  B64.round x == x.
Proof.
  intros Hk Hp Hx. unfold B64.round.
  pose proof (Qred_correct x) as Hr. set (x' := Qred x) in *.
  destruct (Qeq_bool x' 0) eqn:E0.
  - apply Qeq_bool_iff in E0. now rewrite <- Hr, E0.
  - assert (Hnz : ~ x' == 0) by (now apply Qeq_bool_neq).
    assert (Hq : (B64.ulp_exp x' <= p)%Z).
    { unfold B64.ulp_exp. apply Z.max_lub; [|exact Hp].
      enough (B64.ilog2 x' < p + 53)%Z by lia.
      apply pow2_lt_inv.
      apply (Qle_lt_trans _ (Qabs x')); [now apply ilog2_lower|].
      rewrite Hr, Hx, Qabs_Qmult, (Qabs_pos (B64.pow2 p))
        by (apply Qlt_le_weak, pow2_pos).
      rewrite (Z.add_comm p 53), pow2_plus.
      apply Qmult_lt_compat_r; [apply pow2_pos|].
      rewrite (pow2_Z 53) by lia.
      change (Qabs (inject_Z k)) with (inject_Z (Z.abs k)).
      now rewrite <- Zlt_Qlt. }
    set (q := B64.ulp_exp x') in *. unfold B64.round_at.
    assert (Hdiv : x' / B64.pow2 q == inject_Z (k * 2 ^ (p - q))).
    { rewrite Hr, Hx, inject_Z_mult, <- pow2_Z by lia.
      replace p with ((p - q) + q)%Z at 1 by lia. rewrite pow2_plus.
      field. pose proof (pow2_pos q). lra. }
    rewrite Hdiv, rne_Z, Hx, inject_Z_mult, <- pow2_Z by lia.
    replace p with ((p - q) + q)%Z at 2 by lia. rewrite pow2_plus. ring.
Qed.

(** Halves of integers below [2 ^ 52] in magnitude are binary64 numbers. *)
Lemma round_half (k : Z) (x : Q) :
  (Z.abs k < 2 ^ 53)%Z -> x == inject_Z k / 2 -> B64.round x == x.
Proof.
  intros Hk Hx. apply (round_grid k (-1)); [exact Hk | lia |].
  rewrite Hx. reflexivity.
Qed.

(** *** The rounding error *)

Lemma rne_error (y : Q) : Qabs (inject_Z (B64.rne y) - y) <= 1 # 2.
Proof.
  pose proof (Qfloor_le y) as Hlo. pose proof (Qlt_floor y) as Hhi.
  rewrite inject_Z_plus in Hhi. change (inject_Z 1) with 1 in Hhi.
  apply Qabs_Qle_condition. unfold B64.rne.
  destruct (Qcompare (y - inject_Z (Qfloor y)) (1 # 2)) eqn:E.
  - apply Qeq_alt in E. destruct (Z.even (Qfloor y)).
    + split; lra.
    + rewrite inject_Z_plus. change (inject_Z 1) with 1. split; lra.
  - apply Qlt_alt in E. split; lra.
  - apply Qgt_alt in E. rewrite inject_Z_plus. change (inject_Z 1) with 1.
    split; lra.
Qed.

(** What [B64.round] computes on a number that is not zero. *)
Lemma round_cases (x : Q) :
  (x == 0 /\ B64.round x == 0)
  \/ exists q : Z,
       (q = (-1074)%Z \/ B64.pow2 (q + 52) <= Qabs x)
       /\ B64.round x == inject_Z (B64.rne (x / B64.pow2 q)) * B64.pow2 q.
Proof.
  unfold B64.round.
  pose proof (Qred_correct x) as Hr. set (x' := Qred x) in *.
  destruct (Qeq_bool x' 0) eqn:E0.
  - left. apply Qeq_bool_iff in E0. split; [now rewrite <- Hr | reflexivity].
  - right. assert (Hnz : ~ x' == 0) by (now apply Qeq_bool_neq).
    exists (B64.ulp_exp x'). split.
    + unfold B64.ulp_exp.
      destruct (Z.max_spec (B64.ilog2 x' - 52) (-1074)) as [[_ ->]|[_ ->]];
        [now left | right].
      replace (B64.ilog2 x' - 52 + 52)%Z with (B64.ilog2 x') by lia.
      rewrite <- Hr. now apply ilog2_lower.
    + unfold B64.round_at. generalize (B64.ulp_exp x'). intros q.
      now rewrite Hr.
Qed.

(** The error of a rounding is at most half a unit in the last place:
    [2 ^ -53] of the magnitude, or [2 ^ -1075] among the subnormal
    numbers. *)
Lemma round_error (x : Q) :
  Qabs (B64.round x - x) <= Qabs x * B64.pow2 (-53) + B64.pow2 (-1075).
Proof.
  destruct (round_cases x) as [[E0 E]|(q & Hq & E)].
  - rewrite E, E0. vm_compute. discriminate.
  - pose proof (pow2_pos q) as Hp.
    assert (Ex : B64.round x - x
                 == (inject_Z (B64.rne (x / B64.pow2 q)) - x / B64.pow2 q)
                    * B64.pow2 q).
    { rewrite E. field. lra. }
    rewrite Ex, Qabs_Qmult, (Qabs_pos (B64.pow2 q)) by lra.
    pose proof (rne_error (x / B64.pow2 q)) as He.
    assert (Hhalf : Qabs (inject_Z (B64.rne (x / B64.pow2 q)) - x / B64.pow2 q)
                    * B64.pow2 q <= B64.pow2 (q + 52) * B64.pow2 (-53)).
    { rewrite pow2_plus.
      assert (E53 : B64.pow2 q * B64.pow2 52 * B64.pow2 (-53)
                    == (1 # 2) * B64.pow2 q).
      { assert (Ec : B64.pow2 52 * B64.pow2 (-53) == 1 # 2) by reflexivity.
        rewrite <- Qmult_assoc, Ec. ring. }
      rewrite E53. apply Qmult_le_compat_r; [exact He | lra]. }
    pose proof (Qabs_nonneg x) as Hx0.
    pose proof (pow2_pos (-53)) as H53. pose proof (pow2_pos (-1075)) as H1075.
    destruct Hq as [->|Hq].
    + assert (E1 : B64.pow2 (-1074 + 52) * B64.pow2 (-53) == B64.pow2 (-1075))
        by reflexivity.
      rewrite E1 in Hhalf.
      assert (0 <= Qabs x * B64.pow2 (-53)) by (apply Qmult_le_0_compat; lra).
      lra.
    + assert (B64.pow2 (q + 52) * B64.pow2 (-53) <= Qabs x * B64.pow2 (-53))
        by (apply Qmult_le_compat_r; lra).
      lra.
Qed.

(** The same with a single bound, easy to compute with: [2 ^ -50] of
    the magnitude plus [2 ^ -50]. *)
Lemma round_within (x : Q) :
  Qabs (B64.round x - x) <= (Qabs x + 1) * (1 # 1125899906842624).
Proof.
  pose proof (round_error x) as H. pose proof (Qabs_nonneg x) as Hx0.
  assert (E1 : B64.pow2 (-53) <= 1 # 1125899906842624) by (vm_compute; discriminate).
  assert (E2 : B64.pow2 (-1075) <= 1 # 1125899906842624) by (vm_compute; discriminate).
  assert (Qabs x * B64.pow2 (-53) <= Qabs x * (1 # 1125899906842624)).
  { rewrite !(Qmult_comm (Qabs x)). apply Qmult_le_compat_r; lra. }
  lra.
Qed.

Lemma round_within_nonneg (x : Q) :
  0 <= x ->
  x - (x + 1) * (1 # 1125899906842624) <= B64.round x
  /\ B64.round x <= x + (x + 1) * (1 # 1125899906842624).
Proof.
  intros H. pose proof (round_within x) as Hw.
  rewrite (Qabs_pos x) in Hw by exact H.
  apply Qabs_Qle_condition in Hw. split; lra.
Qed.

Lemma round_within_neg (x : Q) :
  x <= 0 ->
  x - (1 - x) * (1 # 1125899906842624) <= B64.round x
  /\ B64.round x <= x + (1 - x) * (1 # 1125899906842624).
Proof.
  intros H. pose proof (round_within x) as Hw.
  rewrite (Qabs_neg x) in Hw by exact H.
  apply Qabs_Qle_condition in Hw. split; lra.
Qed.

Lemma round_within_abs (x b : Q) :
  - b <= x -> x <= b ->
  x - (b + 1) * (1 # 1125899906842624) <= B64.round x
  /\ B64.round x <= x + (b + 1) * (1 # 1125899906842624).
Proof.
  intros Hlo Hhi. pose proof (round_within x) as Hw.
  assert (Hb : Qabs x <= b) by (apply Qabs_Qle_condition; split; lra).
  apply Qabs_Qle_condition in Hw. split; lra.
Qed.

Lemma rne_floor (y : Q) : (Qfloor y <= B64.rne y <= Qfloor y + 1)%Z.
Proof.
  unfold B64.rne.
  destruct (Qcompare (y - inject_Z (Qfloor y)) (1 # 2));
    [destruct (Z.even (Qfloor y))|..]; lia.
Qed.

(** Rounding keeps the sign. *)
Lemma round_nonneg (x : Q) : 0 <= x -> 0 <= B64.round x.
Proof.
  intros Hx. destruct (round_cases x) as [[_ E]|(q & _ & E)]; rewrite E.
  - lra.
  - pose proof (pow2_pos q) as Hq.
    apply Qmult_le_0_compat; [|lra].
    change 0 with (inject_Z 0). rewrite <- Zle_Qle.
    pose proof (rne_floor (x / B64.pow2 q)) as [Hf _].
    assert (H0 : 0 <= x / B64.pow2 q).
    { apply Qle_shift_div_l; [exact Hq | lra]. }
    apply Qfloor_resp_le in H0. change (Qfloor 0) with 0%Z in H0. lia.
Qed.

(** *** The result of a rounding is a binary64 number *)

Lemma pow2_le (a b : Z) : (a <= b)%Z -> B64.pow2 a <= B64.pow2 b.
Proof. intros H. apply Qpower_le_compat_l; [exact H | discriminate]. Qed.

Lemma ilog2_upper (x : Q) : ~ x == 0 -> Qabs x < B64.pow2 (B64.ilog2 x + 1).
Proof.
  intros Hx. unfold B64.ilog2.
  set (a := Z.log2 (Z.abs (Qnum x))). set (b := Z.log2 (Zpos (Qden x))).
  destruct (Qle_bool (B64.pow2 (a - b)) (Qabs x)) eqn:E.
  - destruct x as [n d]. cbn [Qnum Qden] in a, b.
    assert (Hn : (0 < Z.abs n)%Z).
    { destruct n; [|reflexivity|reflexivity]. exfalso. apply Hx. reflexivity. }
    destruct (Z.log2_spec _ Hn) as [_ Ha]. fold a in Ha.
    destruct (Z.log2_spec (Zpos d) ltac:(reflexivity)) as [Hb _]. fold b in Hb.
    assert (Ha0 : (0 <= a)%Z) by apply Z.log2_nonneg.
    assert (Hb0 : (0 <= b)%Z) by apply Z.log2_nonneg.
    replace (a - b + 1)%Z with (Z.succ a + - b)%Z by lia.
    rewrite pow2_plus. unfold B64.pow2 at 2. rewrite Qpower_opp.
    fold (B64.pow2 b). rewrite !pow2_Z by lia.
    change (Qabs (n # d)) with (Z.abs n # d). rewrite (Qmake_Qdiv (Z.abs n) d).
    change (?x * / ?y) with (x / y).
    assert (H2b : 0 < inject_Z (2 ^ b)).
    { change 0 with (inject_Z 0). rewrite <- Zlt_Qlt. lia. }
    assert (Hd : 0 < inject_Z (Zpos d)) by reflexivity.
    apply Qlt_shift_div_r; [exact Hd|].
    unfold Qdiv. rewrite <- Qmult_assoc, (Qmult_comm (/ _)), Qmult_assoc.
    apply Qlt_shift_div_l; [exact H2b|].
    rewrite <- !inject_Z_mult, <- Zlt_Qlt. nia.
  - replace (a - b - 1 + 1)%Z with (a - b)%Z by lia.
    apply Qnot_le_lt. intros H. apply Qle_bool_iff in H. congruence.
Qed.

Lemma rne_ge_int (m : Z) (y : Q) : inject_Z m <= y -> (m <= B64.rne y)%Z.
Proof.
  intros H. pose proof (rne_floor y) as [Hf _].
  apply Qfloor_resp_le in H. rewrite Qfloor_Z in H. lia.
Qed.

Lemma rne_le_int (m : Z) (y : Q) : y <= inject_Z m -> (B64.rne y <= m)%Z.
Proof.
  intros H. destruct (Qlt_le_dec y (inject_Z m)) as [Hlt|Hge].
  - pose proof (rne_floor y) as [_ Hf]. pose proof (Qfloor_le y) as Hl.
    assert (Hz : inject_Z (Qfloor y) < inject_Z m) by lra.
    rewrite <- Zlt_Qlt in Hz. lia.
  - assert (E : y == inject_Z m) by lra. rewrite E, rne_Z. lia.
Qed.

(** The result of a rounding has at most 53 significant bits above the
    subnormal spacing. *)
Lemma round_on_grid (x : Q) :
  exists k p : Z,
    (Z.abs k <= 2 ^ 53)%Z /\ (-1074 <= p)%Z
    /\ B64.round x == inject_Z k * B64.pow2 p.
Proof.
  unfold B64.round.
  pose proof (Qred_correct x) as Hr. set (x' := Qred x) in *.
  destruct (Qeq_bool x' 0) eqn:E0.
  - exists 0%Z, 0%Z. split; [lia|]. split; [lia | reflexivity].
  - assert (Hnz : ~ x' == 0) by (now apply Qeq_bool_neq).
    set (q := B64.ulp_exp x').
    exists (B64.rne (x' / B64.pow2 q)), q.
    assert (Hq : (-1074 <= q)%Z) by apply Z.le_max_r.
    assert (Hq' : (B64.ilog2 x' - 52 <= q)%Z) by apply Z.le_max_l.
    split; [|split; [exact Hq | reflexivity]].
    pose proof (pow2_pos q) as Hp.
    assert (Hx : Qabs x' < B64.pow2 (53 + q)).
    { apply (Qlt_le_trans _ (B64.pow2 (B64.ilog2 x' + 1)));
        [now apply ilog2_upper | apply pow2_le; lia]. }
    rewrite pow2_plus, (pow2_Z 53) in Hx by lia.
    assert (Hy : - inject_Z (2 ^ 53) <= x' / B64.pow2 q
                 /\ x' / B64.pow2 q <= inject_Z (2 ^ 53)).
    { apply Qabs_Qle_condition.
      unfold Qdiv. rewrite Qabs_Qmult, (Qabs_pos (/ B64.pow2 q)).
      - apply Qle_shift_div_r; [exact Hp | lra].
      - apply Qlt_le_weak, Qinv_lt_0_compat, Hp. }
    destruct Hy as [Hy0 Hy1].
    rewrite <- inject_Z_opp in Hy0.
    apply rne_ge_int in Hy0. apply rne_le_int in Hy1. lia.
Qed.

(** Rounding a binary64 number leaves it. *)
Lemma round_idem (x : Q) : B64.round (B64.round x) == B64.round x.
Proof.
  destruct (round_on_grid x) as (k & p & Hk & Hp & E).
  destruct (Z.eq_dec (Z.abs k) (2 ^ 53)%Z) as [Hmax|Hlt].
  - assert (Hs : (k = Z.sgn k * 2 ^ 53)%Z) by lia.
    apply (round_grid (Z.sgn k) (p + 53)); [lia | lia |].
    rewrite E, (Z.add_comm p 53), pow2_plus, (pow2_Z 53) by lia.
    rewrite Qmult_assoc, <- inject_Z_mult, <- Hs. reflexivity.
  - apply (round_grid k p); [lia | exact Hp | exact E].
Qed.

(** *** Rounding within a binade *)

Lemma Qfloor_eq (x : Q) (i : Z) :
  Qfloor x = i <-> inject_Z i <= x /\ x < inject_Z i + 1.
Proof.
  split.
  - intros <-. split; [apply Qfloor_le|].
    pose proof (Qlt_floor x) as H. rewrite inject_Z_plus in H. exact H.
  - intros [Hlo Hhi]. apply Z.le_antisymm.
    + apply Z.lt_succ_r. rewrite Zlt_Qlt.
      unfold Z.succ. rewrite inject_Z_plus. change (inject_Z 1) with 1.
      pose proof (Qfloor_le x). lra.
    + rewrite <- (Qfloor_Z i). now apply Qfloor_resp_le.
Qed.

Lemma inject_Z_pred (n : Z) : inject_Z (n - 1) == inject_Z n - 1.
Proof.
  unfold Z.sub. rewrite inject_Z_plus. reflexivity.
Qed.

(** A number within a half of an even integer rounds to it. *)
Lemma rne_tie_even (y : Q) (n : Z) :
  Qabs (y - inject_Z n) <= 1 # 2 -> Z.even n = true -> B64.rne y = n.
Proof.
  intros Hy Hn. apply Qabs_Qle_condition in Hy. destruct Hy as [Hlo Hhi].
  unfold B64.rne. destruct (Qlt_le_dec y (inject_Z n)) as [Hlt|Hge].
  - assert (Hf : Qfloor y = (n - 1)%Z).
    { apply Qfloor_eq. rewrite inject_Z_pred. split; lra. }
    rewrite Hf.
    assert (Hodd : Z.even (n - 1) = false).
    { rewrite Z.even_sub, Hn. reflexivity. }
    rewrite Hodd.
    destruct (Qcompare (y - inject_Z (n - 1)) (1 # 2)) eqn:E.
    + lia.
    + apply Qlt_alt in E. rewrite inject_Z_pred in E. lra.
    + lia.
  - assert (Hf : Qfloor y = n) by (apply Qfloor_eq; split; lra).
    rewrite Hf, Hn.
    destruct (Qcompare (y - inject_Z n) (1 # 2)) eqn:E; [reflexivity ..|].
    apply Qgt_alt in E. lra.
Qed.

(** What [B64.round] computes on a number that is not zero, with the
    binade of the number. *)
Lemma round_cases_binade (x : Q) :
  ~ x == 0 ->
  exists q : Z,
    (-1074 <= q)%Z
    /\ (q = (-1074)%Z \/ B64.pow2 (q + 52) <= Qabs x)
    /\ Qabs x < B64.pow2 (q + 53)
    /\ B64.round x == inject_Z (B64.rne (x / B64.pow2 q)) * B64.pow2 q.
Proof.
  intros Hx. unfold B64.round.
  pose proof (Qred_correct x) as Hr. set (x' := Qred x) in *.
  destruct (Qeq_bool x' 0) eqn:E0.
  - apply Qeq_bool_iff in E0. exfalso. apply Hx. now rewrite <- Hr.
  - assert (Hnz : ~ x' == 0) by (now apply Qeq_bool_neq).
    exists (B64.ulp_exp x').
    assert (Hq : (-1074 <= B64.ulp_exp x')%Z) by apply Z.le_max_r.
    assert (Hq' : (B64.ilog2 x' - 52 <= B64.ulp_exp x')%Z) by apply Z.le_max_l.
    split; [exact Hq|]. split; [|split].
    + unfold B64.ulp_exp.
      destruct (Z.max_spec (B64.ilog2 x' - 52) (-1074)) as [[_ ->]|[_ ->]];
        [now left | right].
      replace (B64.ilog2 x' - 52 + 52)%Z with (B64.ilog2 x') by lia.
      rewrite <- Hr. now apply ilog2_lower.
    + rewrite <- Hr.
      apply (Qlt_le_trans _ (B64.pow2 (B64.ilog2 x' + 1)));
        [now apply ilog2_upper | apply pow2_le; lia].
    + unfold B64.round_at. generalize (B64.ulp_exp x'). intros q.
      now rewrite Hr.
Qed.

(** Below [2 ^ (a + 1)] the error of a rounding is at most
    [2 ^ (a - 53)]. *)
Lemma round_error_below (a : Z) (x : Q) :
  (-1022 <= a)%Z -> Qabs x < B64.pow2 (a + 1) ->
  Qabs (B64.round x - x) <= B64.pow2 (a - 53).
Proof.
  intros Ha Hx. pose proof (pow2_pos (a - 53)) as Hp.
  destruct (Qeq_dec x 0) as [E0|Hnz].
  - rewrite E0.
    assert (Ez : Qabs (B64.round 0 - 0) == 0) by reflexivity.
    rewrite Ez. apply Qlt_le_weak. exact Hp.
  - destruct (round_cases_binade x Hnz) as (q & Hq & Hlow & _ & E).
    pose proof (pow2_pos q) as Hpq.
    assert (Hqa : (q <= a - 52)%Z).
    { destruct Hlow as [->|Hlow]; [lia|].
      enough (q + 52 < a + 1)%Z by lia.
      apply pow2_lt_inv. apply (Qle_lt_trans _ (Qabs x)); assumption. }
    assert (Ex : B64.round x - x
                 == (inject_Z (B64.rne (x / B64.pow2 q)) - x / B64.pow2 q)
                    * B64.pow2 q).
    { rewrite E. field. lra. }
    rewrite Ex, Qabs_Qmult, (Qabs_pos (B64.pow2 q)) by lra.
    pose proof (rne_error (x / B64.pow2 q)) as He.
    apply (Qle_trans _ ((1 # 2) * B64.pow2 q)).
    + apply Qmult_le_compat_r; [exact He | lra].
    + apply (Qle_trans _ (B64.pow2 (q - 1))).
      * replace q with ((q - 1) + 1)%Z at 1 by lia. rewrite pow2_plus.
        assert (E2 : B64.pow2 1 == 2) by reflexivity. rewrite E2.
        pose proof (pow2_pos (q - 1)). lra.
      * apply pow2_le. lia.
Qed.

(** From [2 ^ (g + 52)] on, the result of a rounding is a multiple of
    [2 ^ g]. *)
Lemma round_multiple (g : Z) (x : Q) :
  B64.pow2 (g + 52) <= Qabs x ->
  exists k : Z, B64.round x == inject_Z k * B64.pow2 g.
Proof.
  intros Hx.
  assert (Hnz : ~ x == 0).
  { intros E0. rewrite E0 in Hx. pose proof (pow2_pos (g + 52)).
    change (Qabs 0) with 0 in Hx. lra. }
  destruct (round_cases_binade x Hnz) as (q & Hq & _ & Hup & E).
  assert (Hgq : (g <= q)%Z).
  { enough (g + 52 < q + 53)%Z by lia.
    apply pow2_lt_inv. apply (Qle_lt_trans _ (Qabs x)); assumption. }
  exists (B64.rne (x / B64.pow2 q) * 2 ^ (q - g))%Z.
  rewrite E, inject_Z_mult, <- pow2_Z by lia.
  replace q with ((q - g) + g)%Z at 2 by lia. rewrite pow2_plus. ring.
Qed.

(** Absorption.  A half of an integer [H] below [2 ^ 51] in magnitude
    absorbs a perturbation of at most half a unit in its last place:
    the sum rounds to [H], a tie going to [H] because its last bit is
    0. *)
Lemma round_absorb (g h : Z) (H delta : Q) :
  H == inject_Z h / 2 ->
  B64.pow2 (g + 52) <= Qabs (H + delta) ->
  Qabs (H + delta) < B64.pow2 51 ->
  Qabs delta <= B64.pow2 (g - 1) ->
  B64.round (H + delta) == H.
Proof.
  intros HH Hlo Hhi Hd.
  assert (Hnz : ~ H + delta == 0).
  { intros E0. rewrite E0 in Hlo. pose proof (pow2_pos (g + 52)).
    change (Qabs 0) with 0 in Hlo. lra. }
  destruct (round_cases_binade _ Hnz) as (q & Hq & Hlow & Hup & E).
  pose proof (pow2_pos q) as Hpq.
  assert (Hgq : (g <= q)%Z).
  { enough (g + 52 < q + 53)%Z by lia.
    apply pow2_lt_inv.
    apply (Qle_lt_trans _ (Qabs (H + delta))); assumption. }
  assert (Hq2 : (q <= -2)%Z).
  { destruct Hlow as [->|Hlow]; [lia|].
    enough (q + 52 < 51)%Z by lia.
    apply pow2_lt_inv.
    apply (Qle_lt_trans _ (Qabs (H + delta))); assumption. }
  set (N := (h * 2 ^ (- 1 - q))%Z).
  assert (EH : H == inject_Z N * B64.pow2 q).
  { unfold N. rewrite HH, inject_Z_mult, <- pow2_Z by lia.
    assert (E2 : B64.pow2 (- 1 - q) * B64.pow2 q == 1 # 2).
    { rewrite <- pow2_plus. replace (- 1 - q + q)%Z with (-1)%Z by lia.
      reflexivity. }
    rewrite <- Qmult_assoc, E2. field. }
  assert (Heven : Z.even N = true).
  { unfold N. rewrite Z.even_mul, Z.even_pow by lia.
    apply orb_true_r. }
  assert (Hr : B64.rne ((H + delta) / B64.pow2 q) = N).
  { apply rne_tie_even; [|exact Heven].
    assert (Ed : (H + delta) / B64.pow2 q - inject_Z N
                 == delta / B64.pow2 q).
    { rewrite EH at 1. field. lra. }
    rewrite Ed. unfold Qdiv. rewrite Qabs_Qmult, (Qabs_pos (/ B64.pow2 q)).
    - apply Qle_shift_div_r; [exact Hpq|].
      apply (Qle_trans _ (B64.pow2 (g - 1))); [exact Hd|].
      apply (Qle_trans _ (B64.pow2 (q - 1))); [apply pow2_le; lia|].
      replace q with ((q - 1) + 1)%Z at 2 by lia. rewrite pow2_plus.
      assert (E2 : B64.pow2 1 == 2) by reflexivity. rewrite E2.
      pose proof (pow2_pos (q - 1)). lra.
    - apply Qlt_le_weak, Qinv_lt_0_compat, Hpq. }
  rewrite E, Hr, EH. reflexivity.
Qed.

(** Rounding does not cross a binary64 number below it. *)
Lemma round_ge_repr (k p : Z) (x : Q) :
  0 < x -> (Z.abs k < 2 ^ 53)%Z -> (-1074 <= p)%Z ->
  inject_Z k * B64.pow2 p <= x ->
  inject_Z k * B64.pow2 p <= B64.round x.
Proof.
  intros Hx Hk Hp Hz.
  assert (Hnz : ~ x == 0) by (intros E0; rewrite E0 in Hx; discriminate).
  destruct (round_cases_binade x Hnz) as (q & Hq & Hlow & Hup & E).
  pose proof (pow2_pos q) as Hpq. pose proof (pow2_pos p) as Hpp.
  rewrite E. destruct (Z_le_gt_dec q p) as [Hqp|Hqp].
  - assert (Ez : inject_Z k * B64.pow2 p
                 == inject_Z (k * 2 ^ (p - q)) * B64.pow2 q).
    { rewrite inject_Z_mult, <- pow2_Z by lia.
      replace p with ((p - q) + q)%Z at 1 by lia. rewrite pow2_plus. ring. }
    rewrite Ez. apply Qmult_le_compat_r; [|lra].
    rewrite <- Zle_Qle. apply rne_ge_int.
    apply Qle_shift_div_l; [exact Hpq|]. now rewrite <- Ez.
  - destruct Hlow as [->|Hlow]; [lia|].
    rewrite (Qabs_pos x) in Hlow by lra.
    apply (Qle_trans _ (B64.pow2 (q + 52))).
    + apply (Qle_trans _ (inject_Z (2 ^ 53) * B64.pow2 p)).
      * apply Qmult_le_compat_r; [|lra]. rewrite <- Zle_Qle. lia.
      * rewrite <- pow2_Z, <- pow2_plus by lia. apply pow2_le. lia.
    + rewrite (Z.add_comm q 52), pow2_plus, (pow2_Z 52) by lia.
      apply Qmult_le_compat_r; [|lra].
      rewrite <- Zle_Qle. apply rne_ge_int.
      apply Qle_shift_div_l; [exact Hpq|].
      rewrite <- (pow2_Z 52), <- pow2_plus, (Z.add_comm 52 q) by lia.
      exact Hlow.
Qed.

(** ** Binary64 operations on halves of integers *)

#[export] Instance trunc_comp : Proper (Qeq ==> eq) Js.trunc.
Proof.
  intros x y E. unfold Js.trunc.
  now rewrite (Qleb_comp _ _ (Qeq_refl 0) _ _ E), (Qfloor_comp _ _ E),
    (Qceiling_comp _ _ E).
Qed.

#[export] Instance rem_comp : Proper (Qeq ==> Qeq ==> Qeq) Js.rem.
Proof.
  intros x x' Ex y y' Ey. unfold Js.rem.
  assert (E : x / y == x' / y') by (now rewrite Ex, Ey).
  now rewrite (trunc_comp _ _ E), Ex, Ey.
Qed.

#[export] Instance add_comp : Proper (Qeq ==> Qeq ==> Qeq) Js.add.
Proof. intros x x' Ex y y' Ey. unfold Js.add. now rewrite Ex, Ey. Qed.

#[export] Instance sub_comp : Proper (Qeq ==> Qeq ==> Qeq) Js.sub.
Proof. intros x x' Ex y y' Ey. unfold Js.sub. now rewrite Ex, Ey. Qed.

#[export] Instance mul_comp : Proper (Qeq ==> Qeq ==> Qeq) Js.mul.
Proof. intros x x' Ex y y' Ey. unfold Js.mul. now rewrite Ex, Ey. Qed.

#[export] Instance div_comp : Proper (Qeq ==> Qeq ==> Qeq) Js.div.
Proof. intros x x' Ex y y' Ey. unfold Js.div. now rewrite Ex, Ey. Qed.

#[export] Instance normalize_comp : Proper (Qeq ==> Qeq) normalize.
Proof. intros x y E. unfold normalize. now rewrite E. Qed.

#[export] Instance norm360_comp : Proper (Qeq ==> Qeq) norm360.
Proof. intros x y E. unfold norm360. now rewrite E. Qed.

#[export] Instance half_integer_comp : Proper (Qeq ==> iff) half_integer.
Proof.
  intros x y E. unfold half_integer.
  split; intros [k H]; exists k; [now rewrite <- E | now rewrite E].
Qed.

Lemma half_Z (z : Z) : half_integer (inject_Z z).
Proof.
  exists (2 * z)%Z. rewrite inject_Z_mult. change (inject_Z 2) with 2. field.
Qed.

Lemma half_half (z : Z) : half_integer (inject_Z z / 2).
Proof. now exists z. Qed.

Lemma half_add (x y : Q) :
  half_integer x -> half_integer y -> half_integer (x + y).
Proof.
  intros [a Ha] [b Hb]. exists (a + b)%Z.
  rewrite Ha, Hb, inject_Z_plus. field.
Qed.

Lemma half_opp (x : Q) : half_integer x -> half_integer (- x).
Proof.
  intros [a Ha]. exists (- a)%Z. rewrite Ha, inject_Z_opp. field.
Qed.

Lemma half_sub (x y : Q) :
  half_integer x -> half_integer y -> half_integer (x - y).
Proof. intros Hx Hy. apply half_add; [exact Hx | now apply half_opp]. Qed.

Lemma half_rem360 (x : Q) : half_integer x -> half_integer (x %% 360).
Proof.
  intros Hx. destruct (rem360_cong x) as [m Hm]. rewrite Hm.
  apply half_add; [exact Hx|].
  change 360 with (inject_Z 360). rewrite <- inject_Z_mult. apply half_Z.
Qed.

Lemma half_norm360 (x : Q) : half_integer x -> half_integer (norm360 x).
Proof.
  intros Hx. unfold norm360. apply half_rem360, half_add.
  - now apply half_rem360.
  - apply (half_Z 360).
Qed.

(** A half of an integer below [2 ^ 52] in magnitude is a binary64
    number. *)
Lemma round_half_integer (x : Q) :
  half_integer x ->
  - (2 * exact_range) < x -> x < 2 * exact_range ->
  B64.round x == x.
Proof.
  intros [k Hk] Hlo Hhi. apply (round_half k); [|exact Hk].
  unfold exact_range in *. rewrite Hk in Hlo, Hhi.
  assert (E : inject_Z k / 2 == inject_Z k * (1 # 2)) by field.
  rewrite E in Hlo, Hhi.
  assert (H1 : inject_Z (- 2 ^ 53) < inject_Z k).
  { change (inject_Z (- 2 ^ 53)) with (-9007199254740992). lra. }
  assert (H2 : inject_Z k < inject_Z (2 ^ 53)).
  { change (inject_Z (2 ^ 53)) with 9007199254740992. lra. }
  rewrite <- Zlt_Qlt in H1, H2. lia.
Qed.

Lemma add_exact (x y : Q) :
  half_integer x -> half_integer y ->
  - (2 * exact_range) < x + y -> x + y < 2 * exact_range ->
  x [+] y == x + y.
Proof.
  intros Hx Hy. apply round_half_integer. now apply half_add.
Qed.

Lemma sub_exact (x y : Q) :
  half_integer x -> half_integer y ->
  - (2 * exact_range) < x - y -> x - y < 2 * exact_range ->
  x [-] y == x - y.
Proof.
  intros Hx Hy. apply round_half_integer. now apply half_sub.
Qed.

(** On the halves of integers the code's normalisation is the exact
    one. *)
Lemma normalize_exact (x : Q) : half_integer x -> normalize x == norm360 x.
Proof.
  intros Hx. unfold normalize, norm360.
  destruct (rem360_range x) as [Hlo Hhi].
  rewrite add_exact; [reflexivity | now apply half_rem360 | apply (half_Z 360)
                     | unfold exact_range; lra | unfold exact_range; lra].
Qed.

(** ** The target segment *)

Lemma num_nonneg n : 0 <= num n.
Proof.
  unfold num. change 0 with (inject_Z 0). rewrite <- Zle_Qle. lia.
Qed.

Lemma num_pos n : (0 < n)%nat -> 0 < num n.
Proof.
  intros H. unfold num. change 0 with (inject_Z 0). rewrite <- Zlt_Qlt. lia.
Qed.

Lemma targetIndexOf_range random :
  0 <= random -> random < 1 -> (0 <= targetIndexOf random < 8)%Z.
Proof.
  intros Hlo Hhi. unfold targetIndexOf, Js.floor.
  change (num 8) with 8. split.
  - change 0%Z with (Qfloor 0). apply Qfloor_resp_le. lra.
  - pose proof (Qfloor_le (random * 8)) as Hf.
    rewrite Zlt_Qlt. change (inject_Z 8) with 8. lra.
Qed.

(** Every segment is drawn by some value of [Math.random()]. *)
Lemma targetIndexOf_onto (i : nat) :
  (i < 8)%nat -> targetIndexOf (Z.of_nat i # 8) = Z.of_nat i.
Proof.
  intros H. do 8 (destruct i as [|i]; [reflexivity|]). lia.
Qed.

Section LandingFacts.

Variables (segments spins : nat).
Hypothesis segments_pos : (0 < segments)%nat.

Lemma segAngleOf_pos : 0 < segAngleOf segments.
Proof.
  unfold segAngleOf. apply Qlt_shift_div_l; [now apply num_pos | lra].
Qed.

Lemma segAngleOf_total : num segments * segAngleOf segments == 360.
Proof.
  unfold segAngleOf. field. pose proof (num_pos _ segments_pos). lra.
Qed.

Lemma targetCenter_range (ti : Z) :
  (0 <= ti < Z.of_nat segments)%Z ->
  0 < targetCenter segments ti /\ targetCenter segments ti < 360.
Proof.
  intros [Hlo Hhi]. unfold targetCenter.
  pose proof segAngleOf_pos as Ha. pose proof segAngleOf_total as Ht.
  set (a := segAngleOf segments) in *.
  assert (H0 : 0 <= inject_Z ti * a).
  { apply Qmult_le_0_compat; [|lra].
    change 0 with (inject_Z 0). now rewrite <- Zle_Qle. }
  assert (H1 : inject_Z ti * a <= (num segments - 1) * a).
  { apply Qmult_le_compat_r; [|lra].
    unfold num. change 1 with (inject_Z 1).
    unfold Qminus. rewrite <- inject_Z_opp, <- inject_Z_plus, <- Zle_Qle. lia. }
  assert (H2 : (num segments - 1) * a == 360 - a) by (rewrite <- Ht; ring).
  assert (H3 : a / 2 == a * (1 # 2)) by field.
  rewrite H3. split; lra.
Qed.

(** In exact arithmetic the landing value is the negated target centre,
    up to full turns. *)
Lemma landing_cong (r : Q) (ti : Z) :
  exists m : Z,
    landingExact segments spins r ti
    == 360 - targetCenter segments ti + 360 * inject_Z m.
Proof.
  destruct (norm360_cong r) as [m Hm].
  exists (- m - Z.of_nat spins - 1)%Z.
  unfold landingExact, num. rewrite Hm.
  unfold Z.sub. rewrite !inject_Z_plus, !inject_Z_opp.
  change (inject_Z 1) with 1. ring.
Qed.

Lemma landing_normalized (r : Q) (ti : Z) :
  (0 <= ti < Z.of_nat segments)%Z ->
  norm360 (landingExact segments spins r ti)
  == 360 - targetCenter segments ti.
Proof.
  intros Hti. destruct (landing_cong r ti) as [m Hm].
  apply (norm360_eq _ _ m); [|exact Hm].
  destruct (targetCenter_range ti Hti). split; lra.
Qed.

(** The distance travelled, in exact arithmetic. *)
Lemma landing_travel (r : Q) (ti : Z) :
  (0 <= ti < Z.of_nat segments)%Z ->
  num spins * 360 < r - landingExact segments spins r ti
  /\ r - landingExact segments spins r ti < num spins * 360 + 720.
Proof.
  intros Hti. unfold landingExact.
  destruct (targetCenter_range ti Hti). destruct (norm360_range r).
  split; lra.
Qed.

(** *** Where binary64 is exact *)

Hypothesis segments_divide : (360 mod Z.of_nat segments = 0)%Z.
Hypothesis spins_small : (Z.of_nat spins <= 2 ^ 41)%Z.

Lemma segAngleOf_whole :
  exists q : Z, segAngleOf segments == inject_Z q /\ (0 < q <= 360)%Z.
Proof.
  exists (360 / Z.of_nat segments)%Z.
  assert (HN : (0 < Z.of_nat segments)%Z) by lia.
  assert (E : (360 = Z.of_nat segments * (360 / Z.of_nat segments))%Z).
  { apply Z.div_exact; [lia | exact segments_divide]. }
  split; [|nia].
  unfold segAngleOf, num. change 360 with (inject_Z 360).
  rewrite E at 1. rewrite inject_Z_mult. field.
  pose proof (num_pos _ segments_pos) as Hp. unfold num in Hp. lra.
Qed.

Lemma segAngle64_exact : segAngle64 segments == segAngleOf segments.
Proof.
  destruct segAngleOf_whole as (q & Hq & Hq0 & Hq1).
  unfold segAngle64, Js.div. fold (segAngleOf segments).
  apply round_half_integer.
  - rewrite Hq. apply half_Z.
  - pose proof segAngleOf_pos. unfold exact_range. lra.
  - rewrite Hq. unfold exact_range.
    apply (Qle_lt_trans _ (inject_Z 360)); [now rewrite <- Zle_Qle | reflexivity].
Qed.

Lemma targetCenter_half (ti : Z) : half_integer (targetCenter segments ti).
Proof.
  destruct segAngleOf_whole as (q & Hq & _).
  unfold targetCenter. rewrite Hq. apply half_add.
  - rewrite <- inject_Z_mult. apply half_Z.
  - apply half_half.
Qed.

Lemma targetCenter64_exact (ti : Z) :
  (0 <= ti < Z.of_nat segments)%Z ->
  targetCenter64 segments ti == targetCenter segments ti.
Proof.
  intros Hti. destruct segAngleOf_whole as (q & Hq & _).
  destruct (targetCenter_range ti Hti) as [Hlo Hhi].
  pose proof segAngleOf_pos as Ha.
  pose proof (targetCenter_half ti) as Hh.
  unfold targetCenter64. rewrite segAngle64_exact.
  unfold targetCenter in *. set (a := segAngleOf segments) in *.
  assert (H0 : 0 <= inject_Z ti * a).
  { apply Qmult_le_0_compat; [|lra].
    change 0 with (inject_Z 0). rewrite <- Zle_Qle. lia. }
  assert (H3 : a / 2 == a * (1 # 2)) by field.
  assert (Em : inject_Z ti [*] a == inject_Z ti * a).
  { unfold Js.mul. apply round_half_integer.
    - rewrite Hq, <- inject_Z_mult. apply half_Z.
    - unfold exact_range. lra.
    - unfold exact_range. rewrite H3 in Hhi. lra. }
  assert (Ed : a [/] 2 == a / 2).
  { unfold Js.div. apply round_half_integer.
    - rewrite Hq. apply half_half.
    - unfold exact_range. rewrite H3. lra.
    - unfold exact_range. rewrite H3 in Hhi |- *. lra. }
  rewrite Em, Ed. unfold Js.add. apply round_half_integer.
  - exact Hh.
  - unfold exact_range. lra.
  - unfold exact_range. lra.
Qed.

Lemma spins_turns_exact :
  num spins [*] 360 == num spins * 360
  /\ half_integer (num spins * 360)
  /\ 0 <= num spins * 360 /\ num spins * 360 <= 791648371998720.
Proof.
  assert (Hh : half_integer (num spins * 360)).
  { unfold num. change 360 with (inject_Z 360).
    rewrite <- inject_Z_mult. apply half_Z. }
  assert (H0 : 0 <= num spins) by apply num_nonneg.
  assert (H1 : num spins <= 2199023255552).
  { unfold num. change 2199023255552 with (inject_Z (2 ^ 41)).
    now rewrite <- Zle_Qle. }
  split; [|split; [exact Hh | split; lra]].
  unfold Js.mul. apply round_half_integer; [exact Hh | ..];
    unfold exact_range; lra.
Qed.

(** On a rotation that is a half of an integer, up to [2 ^ 51] in
    magnitude, every operation of the landing computation is exact. *)
Lemma landing_on_grid (r : Q) (ti : Z) :
  (0 <= ti < Z.of_nat segments)%Z ->
  half_integer r -> - exact_range <= r -> r <= exact_range ->
  computeLandingRotation segments spins r ti
  == landingExact segments spins r ti
  /\ half_integer (landingExact segments spins r ti)
  /\ - (2 * exact_range) < landingExact segments spins r ti
  /\ landingExact segments spins r ti < 2 * exact_range.
Proof.
  intros Hti Hr Hlo Hhi.
  destruct (targetCenter_range ti Hti) as [Hc0 Hc1].
  pose proof (targetCenter_half ti) as Hch.
  destruct (norm360_range r) as [Hn0 Hn1].
  pose proof (half_norm360 r Hr) as Hnh.
  destruct spins_turns_exact as (Es & Hsh & Hs0 & Hs1).
  assert (Eb : normalize r [+] targetCenter64 segments ti
               == norm360 r + targetCenter segments ti).
  { rewrite (normalize_exact r Hr), (targetCenter64_exact ti Hti).
    apply add_exact; [exact Hnh | exact Hch | ..]; unfold exact_range; lra. }
  assert (Hbh : half_integer (norm360 r + targetCenter segments ti))
    by now apply half_add.
  assert (E1 : r [-] (normalize r [+] targetCenter64 segments ti)
               == r - (norm360 r + targetCenter segments ti)).
  { rewrite Eb. apply sub_exact; [exact Hr | exact Hbh | ..];
      unfold exact_range in *; lra. }
  assert (H1h : half_integer (r - (norm360 r + targetCenter segments ti)))
    by now apply half_sub.
  unfold computeLandingRotation, landingExact. unfold exact_range in *.
  split.
  { rewrite E1, Es.
    apply sub_exact; [exact H1h | exact Hsh | ..]; unfold exact_range; lra. }
  split; [now apply half_sub|]. split; lra.
Qed.

End LandingFacts.

Lemma segAngle_8 : Spinner.segAngle == segAngle64 8.
Proof. vm_compute. reflexivity. Qed.

(** The target of [spin] is the landing computation at 8 segments and 5
    full spins. *)
Lemma spin_toValue_landing onStop d random w :
  toValue (Spinner.spin onStop d random w)
  == computeLandingRotation 8 5 (rotation_value w) (targetIndexOf random).
Proof.
  cbn [toValue Spinner.spin].
  change (Js.floor (random * num Spinner.SEGMENTS)) with (targetIndexOf random).
  unfold computeLandingRotation, targetCenter64.
  rewrite segAngle_8. reflexivity.
Qed.

Lemma targetCenter_8 (ti : Z) : targetCenter 8 ti == inject_Z ti * 45 + 22.5.
Proof. unfold targetCenter, segAngleOf. change (num 8) with 8. field. Qed.

(** [spin] on a rotation where binary64 is exact. *)
Lemma spin_on_grid onStop d random w :
  0 <= random -> random < 1 ->
  half_integer (rotation_value w) ->
  - exact_range <= rotation_value w -> rotation_value w <= exact_range ->
  toValue (Spinner.spin onStop d random w)
  == landingExact 8 5 (rotation_value w) (targetIndexOf random)
  /\ half_integer (toValue (Spinner.spin onStop d random w))
  /\ normalize (rotation_value w) == norm360 (rotation_value w).
Proof.
  intros Hlo Hhi Hh Hr0 Hr1.
  pose proof (targetIndexOf_range random Hlo Hhi) as Hti.
  destruct (landing_on_grid 8 5 ltac:(lia) ltac:(reflexivity)
              ltac:(vm_compute; discriminate) (rotation_value w)
              (targetIndexOf random) Hti Hh Hr0 Hr1) as (E & Hl & _).
  rewrite spin_toValue_landing, E.
  split; [reflexivity|]. split; [exact Hl | now apply normalize_exact].
Qed.

(** *** Any rotation up to [2 ^ 51] in magnitude *)

(** The code's normalisation lands in [[0, 360)] whatever it rounds. *)
Lemma normalize_range (x : Q) : 0 <= normalize x /\ normalize x < 360.
Proof.
  unfold normalize. apply rem360_nonneg. apply round_nonneg.
  destruct (rem360_range x). lra.
Qed.

(** Whatever the rotation, up to [2 ^ 51] in magnitude, the wheel turns
    by more than 5 and less than 7 full turns: the roundings of the
    landing computation add up to less than the half segment by which
    the exact travel clears those bounds. *)
Lemma spin_travel_rounded (onStop : bool) (d : ref) (random : Q) (w : World) :
  0 <= random -> random < 1 ->
  - exact_range <= rotation_value w -> rotation_value w <= exact_range ->
  5 * 360 + 18 <= rotation_value w - toValue (Spinner.spin onStop d random w)
  /\ rotation_value w - toValue (Spinner.spin onStop d random w) <= 7 * 360 - 18.
Proof.
  intros Hlo Hhi Hr0 Hr1.
  pose proof (targetIndexOf_range random Hlo Hhi) as Hti.
  rewrite spin_toValue_landing. unfold computeLandingRotation.
  rewrite (targetCenter64_exact 8 5 ltac:(lia) ltac:(reflexivity) _ Hti).
  destruct (spins_turns_exact 5 ltac:(vm_compute; discriminate)) as (Es & _).
  rewrite Es. change (num 5 * 360) with (5 * 360).
  rewrite targetCenter_8.
  assert (Hc0 : 0 <= inject_Z (targetIndexOf random)).
  { change 0 with (inject_Z 0). rewrite <- Zle_Qle. lia. }
  assert (Hc1 : inject_Z (targetIndexOf random) <= 7).
  { change 7 with (inject_Z 7). rewrite <- Zle_Qle. lia. }
  generalize dependent (inject_Z (targetIndexOf random)). intros ti Hc0 Hc1.
  destruct (normalize_range (rotation_value w)) as [Hn0 Hn1].
  generalize dependent (normalize (rotation_value w)). intros n Hn0 Hn1.
  generalize dependent (rotation_value w). intros r Hr0 Hr1.
  unfold exact_range in *.
  unfold Js.add, Js.sub.
  destruct (round_within_abs (n + (ti * 45 + 22.5)) 720) as [B1 B2]; [lra ..|].
  generalize dependent (B64.round (n + (ti * 45 + 22.5))). intros b B1 B2.
  destruct (round_within_abs (r - b) 2251799813686000) as [U1 U2]; [lra ..|].
  generalize dependent (B64.round (r - b)). intros u U1 U2.
  destruct (round_within_abs (u - 5 * 360) 2251799813688000) as [T1 T2];
    [lra ..|].
  generalize dependent (B64.round (u - 5 * 360)). intros t T1 T2.
  split; lra.
Qed.

(** *** The landing value is exact for any rotation

    The additions of the landing computation round, but what they round
    away is absorbed when [5 * 360] is subtracted: the result is the
    exact landing value for the angle the code normalised to. *)

Lemma Qabs_ge_pos (b x : Q) : b <= x -> b <= Qabs x.
Proof. intros H. pose proof (Qle_Qabs x). lra. Qed.

Lemma Qabs_ge_neg (b x : Q) : x <= - b -> b <= Qabs x.
Proof.
  intros H. pose proof (Qle_Qabs (- x)) as Ha. rewrite Qabs_opp in Ha. lra.
Qed.

Lemma Qabs_lt_both (b x : Q) : - b < x -> x < b -> Qabs x < b.
Proof. intros H1 H2. apply Qabs_Qlt_condition. split; assumption. Qed.

Lemma Qabs_le_both (b x : Q) : - b <= x -> x <= b -> Qabs x <= b.
Proof. intros H1 H2. apply Qabs_Qle_condition. split; assumption. Qed.

Lemma round_err_bounds (a : Z) (e x : Q) :
  (-1022 <= a)%Z -> B64.pow2 (a - 53) == e ->
  - B64.pow2 (a + 1) < x -> x < B64.pow2 (a + 1) ->
  - e <= B64.round x - x /\ B64.round x - x <= e.
Proof.
  intros Ha He H1 H2. apply Qabs_Qle_condition. rewrite <- He.
  apply round_error_below; [exact Ha | now apply Qabs_lt_both].
Qed.

Lemma half_sub_1800 (h : Z) (H : Q) :
  H == inject_Z h / 2 -> H - 5 * 360 == inject_Z (h - 3600) / 2.
Proof.
  intros E. rewrite E. unfold Z.sub. rewrite inject_Z_plus.
  generalize (inject_Z h). intros q.
  assert (E2 : inject_Z (- 3600) == - (5 * 360) * 2) by reflexivity.
  rewrite E2. field.
Qed.

(** After a rotation that is not negative: the perturbation is at most
    [2 ^ -44]. *)
Lemma landing_absorbs_pos (h : Z) (H delta : Q) :
  H == inject_Z h / 2 ->
  - (1 # 17592186044416) <= delta -> delta <= 1 # 17592186044416 ->
  - 1125899906844000 <= H + delta -> H + delta <= 1125899906844000 ->
  B64.round (B64.round (H + delta) - 5 * 360) == H - 5 * 360.
Proof.
  intros HH Hd0 Hd1 Hx0 Hx1.
  assert (Hbig : Qabs (H + delta) < B64.pow2 51).
  { apply Qabs_lt_both; change (B64.pow2 51) with 2251799813685248; lra. }
  assert (Hfinal : B64.round (H - 5 * 360) == H - 5 * 360).
  { apply round_half_integer.
    - exists (h - 3600)%Z. now apply half_sub_1800.
    - unfold exact_range. lra.
    - unfold exact_range. lra. }
  destruct (Qlt_le_dec (H + delta) 512) as [Hlt|Hge];
    [destruct (Qlt_le_dec (- 512) (H + delta)) as [Hgt|Hle]|].
  - (* small: the second rounding absorbs *)
    destruct (round_err_bounds 8 (1 # 35184372088832) (H + delta))
      as [E0 E1]; [lia | reflexivity | exact Hgt | exact Hlt |].
    set (u := B64.round (H + delta)) in *.
    assert (Ey : u - 5 * 360 == (H - 5 * 360) + (delta + (u - (H + delta))))
      by ring.
    rewrite Ey.
    apply (round_absorb (-42) (h - 3600)).
    + now apply half_sub_1800.
    + rewrite <- Ey. apply Qabs_ge_neg.
      change (B64.pow2 (-42 + 52)) with 1024. lra.
    + rewrite <- Ey. apply Qabs_lt_both;
        change (B64.pow2 51) with 2251799813685248; lra.
    + apply Qabs_le_both;
        change (B64.pow2 (-42 - 1)) with (1 # 8796093022208); lra.
  - (* at or below -512: the first rounding absorbs *)
    rewrite (round_absorb (-43) h H delta HH); [exact Hfinal | | exact Hbig |].
    + apply Qabs_ge_neg. change (B64.pow2 (-43 + 52)) with 512. lra.
    + apply Qabs_le_both;
        change (B64.pow2 (-43 - 1)) with (1 # 17592186044416); lra.
  - (* at or above 512: the first rounding absorbs *)
    rewrite (round_absorb (-43) h H delta HH); [exact Hfinal | | exact Hbig |].
    + apply Qabs_ge_pos. change (B64.pow2 (-43 + 52)) with 512. lra.
    + apply Qabs_le_both;
        change (B64.pow2 (-43 - 1)) with (1 # 17592186044416); lra.
Qed.

(** After a negative rotation: the perturbation is at most
    [3 * 2 ^ -45], and the value before the last subtraction is
    negative. *)
Lemma landing_absorbs_neg (h : Z) (H delta : Q) :
  H == inject_Z h / 2 ->
  - (3 # 35184372088832) <= delta -> delta <= 3 # 35184372088832 ->
  - 1125899906844000 <= H + delta -> H + delta <= - 22 ->
  B64.round (B64.round (H + delta) - 5 * 360) == H - 5 * 360.
Proof.
  intros HH Hd0 Hd1 Hx0 Hx1.
  assert (Hbig : Qabs (H + delta) < B64.pow2 51).
  { apply Qabs_lt_both; change (B64.pow2 51) with 2251799813685248; lra. }
  assert (Hfinal : B64.round (H - 5 * 360) == H - 5 * 360).
  { apply round_half_integer.
    - exists (h - 3600)%Z. now apply half_sub_1800.
    - unfold exact_range. lra.
    - unfold exact_range. lra. }
  destruct (Qlt_le_dec (- 1024) (H + delta)) as [Hgt|Hle];
    [destruct (Qlt_le_dec (- 256) (H + delta)) as [Hgt'|Hle']|].
  - destruct (round_err_bounds 7 (1 # 70368744177664) (H + delta))
      as [E0 E1]; [lia | reflexivity | exact Hgt'
                  | change (B64.pow2 (7 + 1)) with 256; lra |].
    set (u := B64.round (H + delta)) in *.
    assert (Ey : u - 5 * 360 == (H - 5 * 360) + (delta + (u - (H + delta))))
      by ring.
    rewrite Ey.
    apply (round_absorb (-42) (h - 3600)).
    + now apply half_sub_1800.
    + rewrite <- Ey. apply Qabs_ge_neg.
      change (B64.pow2 (-42 + 52)) with 1024. lra.
    + rewrite <- Ey. apply Qabs_lt_both;
        change (B64.pow2 51) with 2251799813685248; lra.
    + apply Qabs_le_both;
        change (B64.pow2 (-42 - 1)) with (1 # 8796093022208); lra.
  - destruct (round_err_bounds 9 (1 # 17592186044416) (H + delta))
      as [E0 E1]; [lia | reflexivity | exact Hgt
                  | change (B64.pow2 (9 + 1)) with 1024; lra |].
    set (u := B64.round (H + delta)) in *.
    assert (Ey : u - 5 * 360 == (H - 5 * 360) + (delta + (u - (H + delta))))
      by ring.
    rewrite Ey.
    apply (round_absorb (-41) (h - 3600)).
    + now apply half_sub_1800.
    + rewrite <- Ey. apply Qabs_ge_neg.
      change (B64.pow2 (-41 + 52)) with 2048. lra.
    + rewrite <- Ey. apply Qabs_lt_both;
        change (B64.pow2 51) with 2251799813685248; lra.
    + apply Qabs_le_both;
        change (B64.pow2 (-41 - 1)) with (1 # 4398046511104); lra.
  - rewrite (round_absorb (-42) h H delta HH); [exact Hfinal | | exact Hbig |].
    + apply Qabs_ge_neg. change (B64.pow2 (-42 + 52)) with 1024. lra.
    + apply Qabs_le_both;
        change (B64.pow2 (-42 - 1)) with (1 # 8796093022208); lra.
Qed.

Lemma on_grid_add (g : Z) (x y : Q) :
  on_grid g x -> on_grid g y -> on_grid g (x + y).
Proof.
  intros [k Hk] [l Hl]. exists (k + l)%Z.
  rewrite Hk, Hl, inject_Z_plus. ring.
Qed.

Lemma half_on_grid (g : Z) (x : Q) :
  (g <= -1)%Z -> half_integer x -> on_grid g x.
Proof.
  intros Hg [k Hk]. exists (k * 2 ^ (- 1 - g))%Z.
  rewrite Hk, inject_Z_mult, <- pow2_Z by lia.
  assert (E2 : B64.pow2 (- 1 - g) * B64.pow2 g == 1 # 2).
  { rewrite <- pow2_plus. replace (- 1 - g + g)%Z with (-1)%Z by lia.
    reflexivity. }
  rewrite <- Qmult_assoc, E2. field.
Qed.

(** A multiple of [2 ^ g] below [2 ^ (g + 53)] is a binary64 number. *)
Lemma on_grid_round (g : Z) (x : Q) :
  (-1074 <= g)%Z -> on_grid g x ->
  - B64.pow2 (g + 53) < x -> x < B64.pow2 (g + 53) ->
  B64.round x == x.
Proof.
  intros Hg [k Hk] Hlo Hhi. apply (round_grid k g); [|exact Hg | exact Hk].
  pose proof (pow2_pos g) as Hp.
  rewrite Hk, (Z.add_comm g 53), pow2_plus, (pow2_Z 53) in Hlo, Hhi by lia.
  assert (H1 : - inject_Z (2 ^ 53) < inject_Z k).
  { apply Qnot_le_lt. intros Hc.
    assert (inject_Z k * B64.pow2 g <= - inject_Z (2 ^ 53) * B64.pow2 g)
      by (apply Qmult_le_compat_r; lra).
    lra. }
  assert (H2 : inject_Z k < inject_Z (2 ^ 53)).
  { apply Qnot_le_lt. intros Hc.
    assert (inject_Z (2 ^ 53) * B64.pow2 g <= inject_Z k * B64.pow2 g)
      by (apply Qmult_le_compat_r; lra).
    lra. }
  rewrite <- inject_Z_opp, <- Zlt_Qlt in H1. rewrite <- Zlt_Qlt in H2. lia.
Qed.

Lemma center_bounds (ti : Z) :
  (0 <= ti < 8)%Z ->
  22.5 <= inject_Z ti * 45 + 22.5 /\ inject_Z ti * 45 + 22.5 <= 337.5.
Proof.
  intros Hti.
  assert (H0 : inject_Z 0 <= inject_Z ti) by (rewrite <- Zle_Qle; lia).
  assert (H7 : inject_Z ti <= inject_Z 7) by (rewrite <- Zle_Qle; lia).
  change (inject_Z 0) with 0 in H0. change (inject_Z 7) with 7 in H7.
  split; lra.
Qed.

Lemma center_half (ti : Z) : half_integer (inject_Z ti * 45 + 22.5).
Proof.
  apply half_add.
  - change 45 with (inject_Z 45). rewrite <- inject_Z_mult. apply half_Z.
  - exists 45%Z. reflexivity.
Qed.

Lemma turns_half (m : Z) : half_integer (360 * inject_Z m).
Proof.
  change 360 with (inject_Z 360). rewrite <- inject_Z_mult. apply half_Z.
Qed.

(** The landing value of [spin], whatever the rotation up to [2 ^ 50]
    in magnitude: a whole number of turns less the target centre, the
    turns being those of the rotation less the angle the code
    normalised it to, up to the rounding of that angle. *)
Lemma landing_exact_any (r : Q) (ti : Z) :
  (0 <= ti < 8)%Z ->
  - landing_range <= r -> r <= landing_range ->
  exists m : Z,
    r [-] (normalize r [+] (inject_Z ti * 45 + 22.5)) [-] 5 * 360
    == 360 * inject_Z m - (inject_Z ti * 45 + 22.5) - 5 * 360
    /\ Qabs (360 * inject_Z m - (r - normalize r)) <= 1 # 17592186044416.
Proof.
  unfold landing_range. intros Hti Hr0 Hr1.
  destruct (center_bounds ti Hti) as [Hc0 Hc1].
  pose proof (center_half ti) as Hch.
  set (tc := inject_Z ti * 45 + 22.5) in *.
  unfold normalize.
  destruct (rem360_cong r) as [m0 H0].
  destruct (rem360_cong ((r %% 360) [+] 360)) as [m1 H1].
  assert (Hs0 : 0 <= (r %% 360) [+] 360).
  { apply round_nonneg. destruct (rem360_range r). lra. }
  destruct (rem360_nonneg _ Hs0) as [Hn0 Hn1].
  set (M := (- m0 - 1 - m1)%Z). exists M.
  assert (HH : half_integer (360 * inject_Z M - tc)).
  { apply half_sub; [apply turns_half | exact Hch]. }
  destruct HH as [h Hh].
  assert (EM : inject_Z M == - inject_Z m0 - 1 - inject_Z m1).
  { unfold M, Z.sub. rewrite !inject_Z_plus, !inject_Z_opp.
    change (inject_Z 1) with 1. ring. }
  unfold Js.sub.
  set (rho := r %% 360) in *. set (s := rho [+] 360) in *.
  set (c := s %% 360) in *. set (b := c [+] tc).
  assert (Ec : c == s + 360 * inject_Z m1) by exact H1.
  assert (Er : rho == r + 360 * inject_Z m0) by exact H0.
  assert (Ex : r - b == (360 * inject_Z M - tc)
                        + (r - b - (360 * inject_Z M - tc))) by ring.
  rewrite Ex.
  destruct (Qlt_le_dec r 0) as [Hneg|Hpos].
  - (* a negative rotation *)
    destruct (rem360_neg r Hneg) as [Hp0 Hp1]. fold rho in Hp0, Hp1.
    destruct (round_err_bounds 8 (1 # 35184372088832) (rho + 360))
      as [E10 E11];
      [lia | reflexivity | change (B64.pow2 (8 + 1)) with 512; lra
      | change (B64.pow2 (8 + 1)) with 512; lra |].
    fold (rho [+] 360) in E10, E11. fold s in E10, E11.
    destruct (round_err_bounds 9 (1 # 17592186044416) (c + tc))
      as [E20 E21];
      [lia | reflexivity | change (B64.pow2 (9 + 1)) with 1024; lra
      | change (B64.pow2 (9 + 1)) with 1024; lra |].
    fold (c [+] tc) in E20, E21. fold b in E20, E21.
    split.
    + apply (landing_absorbs_neg h); [exact Hh | ..]; rewrite EM; lra.
    + apply Qabs_le_both; rewrite EM; lra.
  - (* a rotation that is not negative *)
    destruct (rem360_nonneg r Hpos) as [Hp0 Hp1]. fold rho in Hp0, Hp1.
    destruct (round_err_bounds 9 (1 # 17592186044416) (rho + 360))
      as [E10 E11];
      [lia | reflexivity | change (B64.pow2 (9 + 1)) with 1024; lra
      | change (B64.pow2 (9 + 1)) with 1024; lra |].
    fold (rho [+] 360) in E10, E11. fold s in E10, E11.
    assert (Hs360 : 360 <= s).
    { pose proof (round_ge_repr 360 0 (rho + 360)) as Hg.
      change (inject_Z 360 * B64.pow2 0) with (360 * 1) in Hg.
      assert (Hg' : 360 * 1 <= B64.round (rho + 360))
        by (apply Hg; [lra | lia | lia | lra]).
      fold (rho [+] 360) in Hg'. fold s in Hg'. lra. }
    assert (Hm1 : inject_Z m1 <= -1).
    { assert (Hlt : inject_Z m1 < inject_Z 0)
        by (change (inject_Z 0) with 0; lra).
      rewrite <- Zlt_Qlt in Hlt.
      change (-1) with (inject_Z (-1)). rewrite <- Zle_Qle. lia. }
    assert (Eb : b == c + tc).
    { unfold b, Js.add.
      destruct (Qlt_le_dec (c + tc) 512) as [Hsmall|Hlarge].
      - apply (on_grid_round (-44)); [lia | |
          change (B64.pow2 (-44 + 53)) with 512; lra
        | change (B64.pow2 (-44 + 53)) with 512; lra].
        apply on_grid_add; [|apply half_on_grid; [lia | exact Hch]].
        unfold on_grid. destruct (round_multiple (-44) (rho + 360)) as [K HK].
        { apply Qabs_ge_pos. change (B64.pow2 (-44 + 52)) with 256. lra. }
        fold (rho [+] 360) in HK. fold s in HK.
        destruct (half_on_grid (-44) (360 * inject_Z m1) ltac:(lia)
                    (turns_half m1)) as [L HL].
        exists (K + L)%Z. rewrite Ec, HK, HL, inject_Z_plus. ring.
      - apply (on_grid_round (-43)); [lia | |
          change (B64.pow2 (-43 + 53)) with 1024; lra
        | change (B64.pow2 (-43 + 53)) with 1024; lra].
        apply on_grid_add; [|apply half_on_grid; [lia | exact Hch]].
        unfold on_grid. destruct (round_multiple (-43) (rho + 360)) as [K HK].
        { apply Qabs_ge_pos. change (B64.pow2 (-43 + 52)) with 512. lra. }
        fold (rho [+] 360) in HK. fold s in HK.
        destruct (half_on_grid (-43) (360 * inject_Z m1) ltac:(lia)
                    (turns_half m1)) as [L HL].
        exists (K + L)%Z. rewrite Ec, HK, HL, inject_Z_plus. ring. }
    split.
    + apply (landing_absorbs_pos h); [exact Hh | ..]; rewrite EM; lra.
    + apply Qabs_le_both; rewrite EM; lra.
Qed.

(** [spin] from any rotation up to [2 ^ 50] in magnitude. *)
Lemma spin_lands_exactly (onStop : bool) (d : ref) (random : Q) (w : World) :
  0 <= random -> random < 1 ->
  - landing_range <= rotation_value w -> rotation_value w <= landing_range ->
  exists m : Z,
    toValue (Spinner.spin onStop d random w)
    == 360 * inject_Z m - (inject_Z (targetIndexOf random) * 45 + 22.5)
       - 5 * 360
    /\ Qabs (360 * inject_Z m
             - (rotation_value w - normalize (rotation_value w)))
       <= 1 # 17592186044416.
Proof.
  intros Hlo Hhi Hr0 Hr1.
  pose proof (targetIndexOf_range random Hlo Hhi) as Hti.
  pose proof (spin_toValue_landing onStop d random w) as E.
  unfold computeLandingRotation in E.
  rewrite (targetCenter64_exact 8 5 ltac:(lia) ltac:(reflexivity) _ Hti) in E.
  destruct (spins_turns_exact 5 ltac:(vm_compute; discriminate)) as (Es & _).
  rewrite Es in E. change (num 5 * 360) with (5 * 360) in E.
  rewrite targetCenter_8 in E.
  destruct (landing_exact_any (rotation_value w) (targetIndexOf random)
              Hti Hr0 Hr1) as (m & Hm & Hd).
  exists m. split; [now rewrite E | exact Hd].
Qed.

(** The landing value is a half of an integer, so normalising it is
    exact: it rests at [360] less the target centre. *)
Lemma spin_rest_angle (onStop : bool) (d : ref) (random : Q) (w : World) :
  0 <= random -> random < 1 ->
  - landing_range <= rotation_value w -> rotation_value w <= landing_range ->
  half_integer (toValue (Spinner.spin onStop d random w))
  /\ normalize (toValue (Spinner.spin onStop d random w))
     == 360 - (inject_Z (targetIndexOf random) * 45 + 22.5).
Proof.
  intros Hlo Hhi Hr0 Hr1.
  pose proof (targetIndexOf_range random Hlo Hhi) as Hti.
  destruct (spin_lands_exactly onStop d random w Hlo Hhi Hr0 Hr1)
    as (m & Hm & _).
  destruct (center_bounds _ Hti) as [Hc0 Hc1].
  assert (Hh : half_integer (toValue (Spinner.spin onStop d random w))).
  { rewrite Hm. apply half_sub; [apply half_sub|].
    - apply turns_half.
    - apply center_half.
    - apply (half_Z 1800). }
  split; [exact Hh|].
  rewrite (normalize_exact _ Hh).
  apply (norm360_eq _ _ (m - 6)); [split; lra|].
  rewrite Hm. unfold Z.sub. rewrite inject_Z_plus.
  change (inject_Z (- (6))) with (-6). ring.
Qed.

(** ** Landing *)

(** The model rounds as the floating-point unit does, at the operations
    that decide the examples below. *)
Module Check.
Import PrimFloat.
#[warnings="-inexact-float"]
Example round_matches_float :
  B64.of_float (0x1p70 - 1957.5)%float
  = Some (Qred (1180591620717411303424 [-] 1957.5))
  /\ B64.of_float (0x1p53 - 1822.5)%float
     = Some (Qred (9007199254740992 [-] 1822.5))
  /\ B64.of_float (-0x1p-50 + 360)%float
     = Some (Qred (- (1 # 1125899906842624) [+] 360))
  /\ B64.of_float (130 * 0.58)%float = Some (Qred (130 [*] Js.lit 0.58))
  /\ B64.of_float (141.66666666666666 * 0.06)%float
     = Some (Qred (Js.lit 141.66666666666666 [*] Js.lit 0.06))
  /\ B64.of_float (75.4 + (124 - 75.4) * 0.05)%float
     = Some (Qred (Js.lit 75.4 [+] (124 [-] Js.lit 75.4) [*] Js.lit 0.05))
  /\ B64.of_float (360 / 7)%float = Some (Qred (360 [/] 7))
  /\ B64.of_float (0x1p-1074 * 1.5)%float
     = Some (Qred (B64.pow2 (-1074) [*] 1.5)).
Proof. vm_compute. repeat split. Qed.
End Check.

(** C1, as stated, fails for a large rotation: at [r = 2 ^ 70], a
    binary64 number, the subtraction is absorbed, the new target is [r]
    itself and the target centre is not brought to the pointer. *)
Lemma spin_absorbed_at_2_70 :
  targetIndexOf 0 = 0%Z
  /\ toValue (Spinner.spin true 0%nat 0
               {| arrays := ∅; rotation_value := 1180591620717411303424 |})
     == 1180591620717411303424
  /\ ~ toValue (Spinner.spin true 0%nat 0
                 {| arrays := ∅; rotation_value := 1180591620717411303424 |})
       == 1180591620717411303424
          - (norm360 1180591620717411303424
             + (inject_Z 0 * 45 + 22.5) + 5 * 360)
  /\ ~ exists m : Z,
         toValue (Spinner.spin true 0%nat 0
                    {| arrays := ∅;
                       rotation_value := 1180591620717411303424 |})
         + (inject_Z 0 * 45 + 22.5)
         == 360 * inject_Z m.
Proof.
  assert (E : toValue (Spinner.spin true 0%nat 0
                {| arrays := ∅; rotation_value := 1180591620717411303424 |})
              == 1180591620717411303424) by (vm_compute; reflexivity).
  split; [reflexivity|]. split; [exact E|]. split.
  - rewrite E. vm_compute. discriminate.
  - intros [m Hm]. rewrite E in Hm. revert Hm.
    unfold Qeq. cbn. lia.
Qed.

(** Nor does the formula hold, with the exact [norm r], for every small
    rotation: at [r = - 2 ^ -50] the sum [(r % 360) + 360] rounds to 360,
    the code's normalised angle is 0 where [norm r] is just below 360,
    and the wheel turns one full turn less than the formula says (the
    target centre still comes to the pointer). *)
Example spin_tiny_negative :
  normalize (- (1 # 1125899906842624)) == 0
  /\ norm360 (- (1 # 1125899906842624)) == 360 - (1 # 1125899906842624)
  /\ toValue (Spinner.spin true 0%nat 0
                {| arrays := ∅;
                   rotation_value := - (1 # 1125899906842624) |})
     == -1822.5
  /\ - (1 # 1125899906842624)
     - (norm360 (- (1 # 1125899906842624)) + (inject_Z 0 * 45 + 22.5)
        + 5 * 360)
     == -2182.5.
Proof. repeat split; vm_compute; reflexivity. Qed.

(** C1 (amended) — landing alignment.  For every prior rotation [r] with
    [|r| <= 2 ^ 50], a multiple of 0.5 or not, and every target segment
    [ti] in [[0, 8)] that the random draw selects, [spin] sets the
    animation target to [r - (normalize r + targetCenter + 5 * 360)],
    with [targetCenter = ti * 45 + 22.5] and [normalize r] the angle the
    code normalises [r] to, up to the rounding of that angle: at most
    [2 ^ -44], and nothing when [r] is a multiple of 0.5.  The new
    rotation plus the target centre is exactly a whole number of turns:
    the centre of the target slice rests at the pointer. *)
Theorem spin_landing_alignment
  (onStop : bool) (d : ref) (random : Q) (w : World) (ti : Z) :
  0 <= random -> random < 1 ->
  targetIndexOf random = ti ->
  - landing_range <= rotation_value w -> rotation_value w <= landing_range ->
  (0 <= ti < 8)%Z
  /\ Qabs (toValue (Spinner.spin onStop d random w)
           - (rotation_value w
              - (normalize (rotation_value w)
                 + (inject_Z ti * 45 + 22.5) + 5 * 360)))
     <= 1 # 17592186044416
  /\ (half_integer (rotation_value w) ->
      toValue (Spinner.spin onStop d random w)
      == rotation_value w
         - (normalize (rotation_value w)
            + (inject_Z ti * 45 + 22.5) + 5 * 360))
  /\ exists m : Z,
       toValue (Spinner.spin onStop d random w) + (inject_Z ti * 45 + 22.5)
       == 360 * inject_Z m.
Proof.
  intros Hlo Hhi Hti Hr0 Hr1.
  destruct (spin_lands_exactly onStop d random w Hlo Hhi Hr0 Hr1)
    as (m & Hm & Hd).
  rewrite Hti in Hm.
  split; [rewrite <- Hti; now apply targetIndexOf_range|].
  split; [|split].
  - apply Qabs_Qle_condition in Hd. destruct Hd as [Hd0 Hd1].
    apply Qabs_Qle_condition. rewrite Hm. split; lra.
  - intros Hh.
    destruct (spin_on_grid onStop d random w Hlo Hhi Hh) as (E & _ & En);
      [unfold landing_range, exact_range in *; lra ..|].
    rewrite Hti in E. rewrite E, En. unfold landingExact.
    change (num 5) with 5. rewrite targetCenter_8. ring.
  - exists (m - 5)%Z. rewrite Hm. unfold Z.sub. rewrite inject_Z_plus.
    change (inject_Z (- (5))) with (-5). ring.
Qed.

Lemma spin_landing_alignment_witness :
  (0 <= 3 < 8)%Z
  /\ Qabs (toValue (Spinner.spin true 0%nat (3 # 8)
                      {| arrays := ∅; rotation_value := 7383.5 |})
           - (7383.5 - (normalize 7383.5 + (inject_Z 3 * 45 + 22.5) + 5 * 360)))
     <= 1 # 17592186044416
  /\ (half_integer 7383.5 ->
      toValue (Spinner.spin true 0%nat (3 # 8)
                 {| arrays := ∅; rotation_value := 7383.5 |})
      == 7383.5 - (normalize 7383.5 + (inject_Z 3 * 45 + 22.5) + 5 * 360))
  /\ exists m : Z,
       toValue (Spinner.spin true 0%nat (3 # 8)
                  {| arrays := ∅; rotation_value := 7383.5 |})
       + (inject_Z 3 * 45 + 22.5)
       == 360 * inject_Z m.
Proof.
  apply (spin_landing_alignment true 0%nat (3 # 8)
           {| arrays := ∅; rotation_value := 7383.5 |} 3%Z).
  - vm_compute. discriminate.
  - reflexivity.
  - reflexivity.
  - vm_compute. discriminate.
  - vm_compute. discriminate.
Defined.

(** C2, as stated, fails: from [r = 7383.5] with target segment 0 the
    landing value of [spin] normalises to 337.5, not to the target centre
    22.5. *)
Lemma landing_rest_angle_not_center :
  targetIndexOf 0 = 0%Z
  /\ normalize (toValue (Spinner.spin true 0%nat 0
                           {| arrays := ∅; rotation_value := 7383.5 |}))
     == 337.5
  /\ ~ normalize (toValue (Spinner.spin true 0%nat 0
                             {| arrays := ∅; rotation_value := 7383.5 |}))
       == (0 * (360 / 8) + (360 / 8) / 2) %% 360.
Proof.
  split; [reflexivity|]. split; [vm_compute; reflexivity|].
  vm_compute. discriminate.
Qed.

(** Nor does it reach the negated centre for every rotation and every
    parameter: from [r = 2 ^ 70] the target of [spin] normalises to 304;
    with 7 segments [360 / 7] is not a binary64 number; and with a
    single full spin, from the binary64 number [-4.564721217689408] the
    landing value for segment 4 is [-922.5000000000001], which
    normalises to [157.4999999999999], not to [157.5]. *)
Example landing_rest_angle_limits :
  normalize (toValue (Spinner.spin true 0%nat 0
                        {| arrays := ∅;
                           rotation_value := 1180591620717411303424 |}))
  == 304
  /\ ~ normalize (computeLandingRotation 7 5 0 0)
       == 360 - (inject_Z 0 * (360 / num 7) + (360 / num 7) / 2)
  /\ computeLandingRotation 8 1 (Js.lit (-4.564721217689408)) 4
     == Js.lit (-922.5000000000001)
  /\ ~ normalize (computeLandingRotation 8 1 (Js.lit (-4.564721217689408)) 4)
       == 360 - (inject_Z 4 * (360 / num 8) + (360 / num 8) / 2).
Proof.
  split; [vm_compute; reflexivity|].
  split; [vm_compute; discriminate|].
  split; [vm_compute; reflexivity | vm_compute; discriminate].
Qed.

(** C2 (amended) — for every prior rotation [r] that is a multiple of 0.5
    with [|r| <= 2 ^ 51], every segment count [N] that divides 360, every
    target [ti] in [[0, N)] and every number of full spins up to
    [2 ^ 41], the landing value computed in binary64 and normalised to
    [[0, 360)] is [360 - (ti * (360 / N) + (360 / N) / 2)], the negated
    target centre; it does not depend on the number of full spins.  The
    landing value of [spin] is the one for 8 segments and 5 full spins,
    and for these the same holds for every prior rotation with
    [|r| <= 2 ^ 50], a multiple of 0.5 or not. *)
Theorem landing_rest_angle
  (N k k' : nat) (r : Q) (ti : Z) (onStop : bool) (d : ref) (random : Q)
  (w : World) :
  (0 < N)%nat ->
  (360 mod Z.of_nat N = 0)%Z ->
  (Z.of_nat k <= 2 ^ 41)%Z -> (Z.of_nat k' <= 2 ^ 41)%Z ->
  (0 <= ti < Z.of_nat N)%Z ->
  half_integer r -> - exact_range <= r -> r <= exact_range ->
  normalize (computeLandingRotation N k r ti)
  == 360 - (inject_Z ti * (360 / num N) + (360 / num N) / 2)
  /\ normalize (computeLandingRotation N k r ti)
     == normalize (computeLandingRotation N k' r ti)
  /\ toValue (Spinner.spin onStop d random w)
     == computeLandingRotation 8 5 (rotation_value w) (targetIndexOf random)
  /\ (0 <= random -> random < 1 ->
      - landing_range <= rotation_value w ->
      rotation_value w <= landing_range ->
      normalize (toValue (Spinner.spin onStop d random w))
      == 360 - (inject_Z (targetIndexOf random) * (360 / num 8)
                + (360 / num 8) / 2)).
Proof.
  intros HN Hdiv Hk Hk' Hti Hh Hr0 Hr1.
  assert (H : forall j : nat, (Z.of_nat j <= 2 ^ 41)%Z ->
                normalize (computeLandingRotation N j r ti)
                == 360 - targetCenter N ti).
  { intros j Hj.
    destruct (landing_on_grid N j HN Hdiv Hj r ti Hti Hh Hr0 Hr1)
      as (E & Hl & _).
    rewrite E, (normalize_exact _ Hl). now apply landing_normalized. }
  split; [exact (H k Hk)|].
  split; [now rewrite (H k Hk), (H k' Hk')|].
  split; [apply spin_toValue_landing|].
  intros Hlo Hhi Hw0 Hw1.
  destruct (spin_rest_angle onStop d random w Hlo Hhi Hw0 Hw1) as [_ E].
  rewrite E. change (num 8) with 8. field.
Qed.

Lemma landing_rest_angle_witness :
  normalize (computeLandingRotation 8 5 (-912) 3)
  == 360 - (inject_Z 3 * (360 / num 8) + (360 / num 8) / 2)
  /\ normalize (computeLandingRotation 8 5 (-912) 3)
     == normalize (computeLandingRotation 8 0 (-912) 3)
  /\ toValue (Spinner.spin true 0%nat (3 # 8)
                {| arrays := ∅; rotation_value := 7383.3 |})
     == computeLandingRotation 8 5 7383.3 (targetIndexOf (3 # 8))
  /\ (0 <= 3 # 8 -> 3 # 8 < 1 ->
      - landing_range <= 7383.3 -> 7383.3 <= landing_range ->
      normalize (toValue (Spinner.spin true 0%nat (3 # 8)
                            {| arrays := ∅; rotation_value := 7383.3 |}))
      == 360 - (inject_Z (targetIndexOf (3 # 8)) * (360 / num 8)
                + (360 / num 8) / 2)).
Proof.
  apply (landing_rest_angle 8 5 0 (-912) 3%Z true 0%nat (3 # 8)
           {| arrays := ∅; rotation_value := 7383.3 |}).
  - lia.
  - reflexivity.
  - vm_compute. discriminate.
  - vm_compute. discriminate.
  - lia.
  - exists (-1824)%Z. reflexivity.
  - vm_compute. discriminate.
  - vm_compute. discriminate.
Defined.

(** C3, as stated, fails in its last step: the new rotation [-1957.5]
    does not normalise to the target centre 157.5. *)
Lemma scenario_rest_angle_not_157_5 :
  ~ (0 - toValue (Spinner.spin true 0%nat (3 # 8)
                    {| arrays := ∅; rotation_value := 0 |}) == 1957.5
     /\ toValue (Spinner.spin true 0%nat (3 # 8)
                   {| arrays := ∅; rotation_value := 0 |}) == -1957.5
     /\ normalize (-1957.5) == 157.5).
Proof. intros (_ & _ & H). revert H. vm_compute. discriminate. Qed.

(** C3 (amended) — from rotation 0, with target segment 3 of 8 and 5 full
    spins, the wheel turns by [0 + (3 * 45 + 22.5) + 1800 = 1957.5], the
    new rotation is [-1957.5], and [-1957.5] normalises to
    [202.5 = 360 - 157.5]: added to the target centre 157.5 it is a full
    turn, so the centre rests at the pointer. *)
Theorem scenario_index3 (onStop : bool) (d : ref) (random : Q) (arrs : store) :
  targetIndexOf random = 3%Z ->
  0 - toValue (Spinner.spin onStop d random
                 {| arrays := arrs; rotation_value := 0 |})
  == 0 + (3 * 45 + 22.5) + 1800
  /\ 0 + (3 * 45 + 22.5) + 1800 == 1957.5
  /\ toValue (Spinner.spin onStop d random
                {| arrays := arrs; rotation_value := 0 |}) == -1957.5
  /\ normalize (-1957.5) == 202.5
  /\ 202.5 == 360 - 157.5
  /\ normalize (-1957.5 + 157.5) == 0.
Proof.
  intros Hti.
  assert (E : toValue (Spinner.spin onStop d random
                         {| arrays := arrs; rotation_value := 0 |})
              == -1957.5).
  { rewrite spin_toValue_landing, Hti. cbn [rotation_value].
    vm_compute. reflexivity. }
  rewrite E. repeat split; vm_compute; reflexivity.
Qed.

Lemma scenario_index3_witness :
  0 - toValue (Spinner.spin true 0%nat (3 # 8)
                 {| arrays := ∅; rotation_value := 0 |})
  == 0 + (3 * 45 + 22.5) + 1800
  /\ 0 + (3 * 45 + 22.5) + 1800 == 1957.5
  /\ toValue (Spinner.spin true 0%nat (3 # 8)
                {| arrays := ∅; rotation_value := 0 |}) == -1957.5
  /\ normalize (-1957.5) == 202.5
  /\ 202.5 == 360 - 157.5
  /\ normalize (-1957.5 + 157.5) == 0.
Proof.
  apply (scenario_index3 true 0%nat (3 # 8) ∅). reflexivity.
Defined.

(** C8, as stated, fails for a large rotation: at [r = 2 ^ 70] the new
    target is not below the stored value, it is equal to it. *)
Lemma spin_not_decreasing_at_2_70 :
  targetIndexOf (7 # 8) = 7%Z
  /\ toValue (Spinner.spin true 0%nat (7 # 8)
               {| arrays := ∅; rotation_value := 1180591620717411303424 |})
     == 1180591620717411303424
  /\ ~ toValue (Spinner.spin true 0%nat (7 # 8)
                 {| arrays := ∅; rotation_value := 1180591620717411303424 |})
       < 1180591620717411303424.
Proof.
  split; [reflexivity|]. split; [vm_compute; reflexivity|].
  vm_compute. intros H. discriminate H.
Qed.

(** C8 (amended) — the rotation accumulates in one direction.  For every
    prior rotation of magnitude at most [2 ^ 51] and every draw of
    [Math.random()], the new target lies at least [5 * 360 = 1800]
    degrees below the stored value, hence strictly below it: the
    normalised current angle and the target centre are both
    non-negative, and the target centre exceeds what the roundings of
    the computation add up to.  The target is stored as it is, not
    wrapped: for a rotation that is a multiple of 0.5 it is exactly
    [r - normalize r - targetCenter - 1800]. *)
Theorem spin_decreases (onStop : bool) (d : ref) (random : Q) (w : World) :
  0 <= random -> random < 1 ->
  - exact_range <= rotation_value w -> rotation_value w <= exact_range ->
  0 <= normalize (rotation_value w)
  /\ 0 <= inject_Z (targetIndexOf random) * 45 + 22.5
  /\ toValue (Spinner.spin onStop d random w) + 1800 <= rotation_value w
  /\ toValue (Spinner.spin onStop d random w) < rotation_value w
  /\ (half_integer (rotation_value w) ->
      toValue (Spinner.spin onStop d random w)
      == rotation_value w - normalize (rotation_value w)
         - (inject_Z (targetIndexOf random) * 45 + 22.5) - 1800).
Proof.
  intros Hlo Hhi Hr0 Hr1.
  destruct (spin_travel_rounded onStop d random w Hlo Hhi Hr0 Hr1) as [T _].
  destruct (targetIndexOf_range random Hlo Hhi) as [Hti Hti'].
  destruct (targetCenter_range 8 ltac:(lia) (targetIndexOf random)
              ltac:(change (Z.of_nat 8) with 8%Z; lia)) as [Hc _].
  rewrite targetCenter_8 in Hc.
  destruct (normalize_range (rotation_value w)) as [Hn _].
  split; [exact Hn|]. split; [lra|]. split; [lra|]. split; [lra|].
  intros Hh.
  destruct (spin_on_grid onStop d random w Hlo Hhi Hh Hr0 Hr1)
    as (E & _ & En).
  rewrite E, En. unfold landingExact. change (num 5) with 5.
  rewrite targetCenter_8. ring.
Qed.

Lemma spin_decreases_witness :
  0 <= normalize (-912)
  /\ 0 <= inject_Z (targetIndexOf (7 # 8)) * 45 + 22.5
  /\ toValue (Spinner.spin true 0%nat (7 # 8)
                {| arrays := ∅; rotation_value := -912 |}) + 1800 <= -912
  /\ toValue (Spinner.spin true 0%nat (7 # 8)
                {| arrays := ∅; rotation_value := -912 |}) < -912
  /\ (half_integer (-912) ->
      toValue (Spinner.spin true 0%nat (7 # 8)
                 {| arrays := ∅; rotation_value := -912 |})
      == -912 - normalize (-912)
         - (inject_Z (targetIndexOf (7 # 8)) * 45 + 22.5) - 1800).
Proof.
  apply (spin_decreases true 0%nat (7 # 8)
           {| arrays := ∅; rotation_value := -912 |}).
  - vm_compute. discriminate.
  - reflexivity.
  - vm_compute. discriminate.
  - vm_compute. discriminate.
Defined.

(** ** Item-sequence normalisation *)

(** A newly allocated reference is none of the existing ones. *)
Lemma fresh_lookup (s : store) : s !! fresh (dom s) = None.
Proof. apply not_elem_of_dom, is_fresh. Qed.

Lemma fresh_ne (s : store) (a : ref) (l : list slot) :
  s !! a = Some l -> fresh (dom s) <> a.
Proof. intros H E. rewrite <- E, fresh_lookup in H. discriminate. Qed.

Lemma padded_step (l : list slot) :
  (List.length l < 8)%nat -> padded (l ++ [None]) = padded l.
Proof.
  intros H. unfold padded. rewrite length_app. cbn [List.length].
  replace (8 - List.length l)%nat with (S (8 - (List.length l + 1)))%nat by lia.
  cbn [replicate]. now rewrite <- app_assoc.
Qed.

Lemma padded_done (l : list slot) : (8 <= List.length l)%nat -> padded l = l.
Proof.
  intros H. unfold padded.
  replace (8 - List.length l)%nat with 0%nat by lia. apply app_nil_r.
Qed.

(** With more fuel than elements missing, the loop ends and leaves
    [padded l] in [filled]; nothing else changes. *)
Lemma pad_spec (fuel : nat) (filled : ref) :
  forall (s : store) (l : list slot),
    s !! filled = Some l ->
    (8 - List.length l < fuel)%nat ->
    Spinner.pad fuel filled s = Some (tt, <[filled := padded l]> s).
Proof.
  induction fuel as [|fuel IH]; intros s l Hs Hf; [lia|].
  cbn [Spinner.pad]. unfold bind at 1, Arr.length. rewrite Hs.
  unfold Spinner.SEGMENTS.
  destruct (Nat.ltb_spec (List.length l) 8) as [Hlt|Hge].
  - unfold bind, Arr.push. rewrite Hs.
    rewrite (IH _ (l ++ [None])).
    + now rewrite insert_insert_eq, padded_step.
    + apply lookup_insert_eq.
    + rewrite length_app. cbn [List.length]. lia.
  - unfold ret. rewrite padded_done by lia. now rewrite insert_id.
Qed.

(** The two branches of [data]. *)
Lemma data_same (s : store) (items : ref) (l : list slot) :
  s !! items = Some l -> List.length l = 8%nat ->
  Spinner.data items s = Some (items, s).
Proof.
  intros Hs Hl. unfold Spinner.data, bind, Arr.length. rewrite Hs, Hl.
  reflexivity.
Qed.

Lemma data_copy (s : store) (items : ref) (l : list slot) :
  s !! items = Some l -> List.length l <> 8%nat ->
  let filled := fresh (dom s) in
  let s1 := <[filled := padded l]> s in
  let d := fresh (dom s1) in
  Spinner.data items s = Some (d, <[d := take 8 (padded l)]> s1).
Proof.
  intros Hs Hl. cbn zeta.
  unfold Spinner.data, bind at 1, Arr.length. rewrite Hs.
  unfold Spinner.SEGMENTS.
  destruct (Nat.eqb_spec (List.length l) 8) as [E|_]; [contradiction|].
  cbn [negb]. unfold bind at 1, Arr.spread, Arr.alloc. rewrite Hs.
  unfold bind.
  rewrite (pad_spec 9 _ _ l) by (rewrite ?lookup_insert_eq; auto; lia).
  rewrite insert_insert_eq.
  unfold Arr.slice0, Arr.alloc. now rewrite lookup_insert_eq.
Qed.

Lemma take_padded_short (l : list slot) :
  (List.length l < 8)%nat -> take 8 (padded l) = padded l.
Proof.
  intros H. apply take_ge. unfold padded.
  rewrite length_app, length_replicate. lia.
Qed.

Lemma take_padded_long (l : list slot) :
  (8 < List.length l)%nat -> take 8 (padded l) = take 8 l.
Proof. intros H. now rewrite padded_done by lia. Qed.

Lemma length_take_padded (l : list slot) : List.length (take 8 (padded l)) = 8%nat.
Proof.
  rewrite length_take. unfold padded.
  rewrite length_app, length_replicate. lia.
Qed.

(** C5 — item-sequence normalisation.  When the caller's sequence [l]
    does not have length 8, [data] returns an array of length exactly 8:
    for a shorter [l], [l] followed by [null]s, every element of [l] at
    the index it had; for a longer [l], the first 8 elements of [l]. *)
Theorem data_normalizes (s : store) (items : ref) (l : list slot) :
  s !! items = Some l ->
  List.length l <> 8%nat ->
  exists (d : ref) (s' : store) (res : list slot),
    Spinner.data items s = Some (d, s')
    /\ s' !! d = Some res
    /\ List.length res = 8%nat
    /\ ((List.length l < 8)%nat ->
        res = l ++ replicate (8 - List.length l) None
        /\ forall i x, l !! i = Some x -> res !! i = Some x)
    /\ ((8 < List.length l)%nat -> res = take 8 l).
Proof.
  intros Hs Hl. eexists _, _, _. split; [apply (data_copy s items l Hs Hl)|].
  split; [apply lookup_insert_eq|].
  split; [apply length_take_padded|]. split.
  - intros Hlt. rewrite take_padded_short by exact Hlt. split; [reflexivity|].
    intros i x Hi. unfold padded. now apply lookup_app_l_Some.
  - apply take_padded_long.
Qed.

Lemma data_normalizes_witness :
  exists (d : ref) (s' : store) (res : list slot),
    Spinner.data 0%nat {[ 0%nat := [Some item_k; None; Some item_bag] ]} = Some (d, s')
    /\ s' !! d = Some res
    /\ List.length res = 8%nat
    /\ ((List.length [Some item_k; None; Some item_bag] < 8)%nat ->
        res = [Some item_k; None; Some item_bag]
                ++ replicate (8 - List.length [Some item_k; None; Some item_bag]) None
        /\ forall i x, [Some item_k; None; Some item_bag] !! i = Some x -> res !! i = Some x)
    /\ ((8 < List.length [Some item_k; None; Some item_bag])%nat ->
        res = take 8 [Some item_k; None; Some item_bag]).
Proof.
  apply (data_normalizes {[ 0%nat := [Some item_k; None; Some item_bag] ]} 0%nat
           [Some item_k; None; Some item_bag]).
  - reflexivity.
  - simpl. lia.
Defined.

(** C10 — normalisation never mutates the caller's sequence.  In both
    components [data] leaves every array that existed before the call,
    the caller's included, with the contents it had.  When the input has
    length 8 the result is the caller's array itself and the store is
    unchanged; otherwise the result is a new array, distinct from the
    caller's and from every array that existed. *)
Theorem data_leaves_items (s : store) (items : ref) (l : list slot) :
  s !! items = Some l ->
  exists (d : ref) (s' : store),
    Spinner.data items s = Some (d, s')
    /\ LiquedGalas.data items s = Some (d, s')
    /\ s' !! items = Some l
    /\ (forall a, is_Some (s !! a) -> s' !! a = s !! a)
    /\ (List.length l = 8%nat -> d = items /\ s' = s)
    /\ (List.length l <> 8%nat -> d <> items /\ s !! d = None).
Proof.
  intros Hs. change LiquedGalas.data with Spinner.data.
  destruct (decide (List.length l = 8%nat)) as [Hl|Hl].
  - exists items, s. rewrite (data_same s items l Hs Hl).
    repeat split; auto; contradiction.
  - eexists _, _. split; [apply (data_copy s items l Hs Hl)|].
    set (filled := fresh (dom s)).
    set (s1 := <[filled := padded l]> s).
    set (d := fresh (dom s1)).
    assert (Hf : forall a, is_Some (s !! a) -> filled <> a).
    { intros a [x Hx]. apply (fresh_ne s a x Hx). }
    assert (Hd : forall a, is_Some (s !! a) -> d <> a).
    { intros a [x Hx]. apply (fresh_ne s1 a x). unfold s1.
      rewrite lookup_insert_ne by (apply Hf; eauto). exact Hx. }
    assert (Hframe : forall a, is_Some (s !! a) ->
                       <[d := take 8 (padded l)]> s1 !! a = s !! a).
    { intros a Ha. rewrite lookup_insert_ne by (now apply Hd).
      unfold s1. now rewrite lookup_insert_ne by (now apply Hf). }
    split; [apply (data_copy s items l Hs Hl)|].
    split; [rewrite Hframe; eauto|].
    split; [exact Hframe|]. split; [contradiction|].
    intros _. split; [apply Hd; eauto|].
    destruct (s !! d) eqn:E; [|reflexivity].
    exfalso. apply (Hd d); [rewrite E; eauto | reflexivity].
Qed.

Lemma data_leaves_items_witness :
  exists (d : ref) (s' : store),
    Spinner.data 0%nat {[ 0%nat := [Some item_k; None; Some item_bag] ]} = Some (d, s')
    /\ LiquedGalas.data 0%nat {[ 0%nat := [Some item_k; None; Some item_bag] ]} = Some (d, s')
    /\ s' !! 0%nat = Some [Some item_k; None; Some item_bag]
    /\ (forall a, is_Some (({[ 0%nat := [Some item_k; None; Some item_bag] ]} : store) !! a) ->
          s' !! a = ({[ 0%nat := [Some item_k; None; Some item_bag] ]} : store) !! a)
    /\ (List.length [Some item_k; None; Some item_bag] = 8%nat ->
        d = 0%nat /\ s' = {[ 0%nat := [Some item_k; None; Some item_bag] ]})
    /\ (List.length [Some item_k; None; Some item_bag] <> 8%nat ->
        d <> 0%nat /\ ({[ 0%nat := [Some item_k; None; Some item_bag] ]} : store) !! d = None).
Proof.
  apply (data_leaves_items {[ 0%nat := [Some item_k; None; Some item_bag] ]} 0%nat
           [Some item_k; None; Some item_bag]).
  reflexivity.
Defined.

(** Whatever the length of the input, the array [data] returns holds
    the first 8 elements of the padded input. *)
Lemma data_result (s : store) (items : ref) (l0 : list slot) (d : ref) (s' : store) :
  s !! items = Some l0 ->
  Spinner.data items s = Some (d, s') ->
  s' !! d = Some (take 8 (padded l0)).
Proof.
  intros Hs Hd. destruct (decide (List.length l0 = 8%nat)) as [Hl|Hl].
  - rewrite (data_same s items l0 Hs Hl) in Hd. injection Hd as <- <-.
    rewrite padded_done, take_ge by lia. exact Hs.
  - rewrite (data_copy s items l0 Hs Hl) in Hd. injection Hd as <- <-.
    apply lookup_insert_eq.
Qed.

Lemma get_in_range (l : list slot) (i : Z) :
  List.length l = 8%nat -> (0 <= i < 8)%Z ->
  exists it : slot, l !! Z.to_nat i = Some it /\ Arr.get l i = Some it.
Proof.
  intros Hl Hi. unfold Arr.get.
  destruct (Z.ltb_spec i 0) as [?|_]; [lia|].
  destruct (lookup_lt_is_Some_2 l (Z.to_nat i)) as [it Hit]; [lia|].
  exists it. now rewrite Hit.
Qed.

(** C4 — the completion callback reports the precomputed target.  Let
    [d] be the array [data] returned for the caller's items, still with
    the contents normalisation gave it when the animation ends.  For
    every draw of [Math.random()] and whatever value [rendered] the
    rotation holds at that moment, a finished spin calls [onStop] exactly
    once, with the index computed before the animation started and the
    element of the normalised sequence at that index (an item or
    [null]); when that index is 3 it reports [(3, item[3])]. *)
Theorem callback_reports_target
  (s : store) (items : ref) (l0 : list slot) (d : ref) (s' : store)
  (random : Q) (w : World) (arrs : store) (rendered : Q) :
  s !! items = Some l0 ->
  Spinner.data items s = Some (d, s') ->
  arrs !! d = s' !! d ->
  0 <= random -> random < 1 ->
  exists (l : list slot) (it : slot),
    s' !! d = Some l
    /\ List.length l = 8%nat
    /\ l !! Z.to_nat (targetIndexOf random) = Some it
    /\ callback (Spinner.spin true d random w) true
         {| arrays := arrs; rotation_value := rendered |}
       = Some [ {| selectedIndex := targetIndexOf random; item := Some it |} ]
    /\ (targetIndexOf random = 3%Z ->
        callback (Spinner.spin true d random w) true
          {| arrays := arrs; rotation_value := rendered |}
        = Some [ {| selectedIndex := 3; item := l !! 3%nat |} ]).
Proof.
  intros Hs Hd Harr Hlo Hhi.
  pose proof (data_result s items l0 d s' Hs Hd) as Hl.
  pose proof (targetIndexOf_range random Hlo Hhi) as Hti.
  destruct (get_in_range (take 8 (padded l0)) (targetIndexOf random)
              (length_take_padded l0) Hti) as (it & Hit & Hget).
  assert (Hcb : callback (Spinner.spin true d random w) true
                  {| arrays := arrs; rotation_value := rendered |}
                = Some [ {| selectedIndex := targetIndexOf random;
                            item := Some it |} ]).
  { cbn [callback Spinner.spin arrays]. unfold Arr.read.
    rewrite Harr, Hl.
    change (Js.floor (random * num Spinner.SEGMENTS)) with (targetIndexOf random).
    now rewrite Hget. }
  exists (take 8 (padded l0)), it.
  split; [exact Hl|]. split; [apply length_take_padded|].
  split; [exact Hit|]. split; [exact Hcb|].
  intros E. rewrite Hcb. rewrite E in Hit |- *.
  change (Z.to_nat 3) with 3%nat in Hit. now rewrite Hit.
Qed.

Lemma callback_reports_target_witness :
  exists (l : list slot) (it : slot),
    <[2%nat := [Some item_k; None; Some item_bag; None; None; None; None; None]]>
      (<[1%nat := [Some item_k; None; Some item_bag; None; None; None; None; None]]>
         ({[ 0%nat := [Some item_k; None; Some item_bag] ]} : store)) !! 2%nat = Some l
    /\ List.length l = 8%nat
    /\ l !! Z.to_nat (targetIndexOf (3 # 8)) = Some it
    /\ callback (Spinner.spin true 2%nat (3 # 8)
                   {| arrays := {[ 0%nat := [Some item_k; None; Some item_bag] ]};
                      rotation_value := 0 |}) true
         {| arrays := {[ 2%nat := [Some item_k; None; Some item_bag; None; None; None; None; None] ]};
            rotation_value := -1957.4 |}
       = Some [ {| selectedIndex := targetIndexOf (3 # 8); item := Some it |} ]
    /\ (targetIndexOf (3 # 8) = 3%Z ->
        callback (Spinner.spin true 2%nat (3 # 8)
                   {| arrays := {[ 0%nat := [Some item_k; None; Some item_bag] ]};
                      rotation_value := 0 |}) true
         {| arrays := {[ 2%nat := [Some item_k; None; Some item_bag; None; None; None; None; None] ]};
            rotation_value := -1957.4 |}
        = Some [ {| selectedIndex := 3; item := l !! 3%nat |} ]).
Proof.
  apply (callback_reports_target
           {[ 0%nat := [Some item_k; None; Some item_bag] ]} 0%nat
           [Some item_k; None; Some item_bag] 2%nat _ (3 # 8) _ _ (-1957.4)).
  - reflexivity.
  - vm_compute. reflexivity.
  - reflexivity.
  - vm_compute. discriminate.
  - reflexivity.
Defined.

(** C9 — the two Spinner components agree.  For the same stored
    rotation, the same random draw and the same item array, [spin]
    computes the same animation target and duration and its callback
    makes the same [onStop] call, and [data] normalises the item sequence
    in the same way, with the same effect on the store. *)
Theorem spinners_agree
  (onStop : bool) (d : ref) (random : Q) (w : World)
  (finished : bool) (w' : World) (items : ref) (s : store) :
  toValue (Spinner.spin onStop d random w)
  = toValue (LiquedGalas.spin onStop d random w)
  /\ duration (Spinner.spin onStop d random w)
     = duration (LiquedGalas.spin onStop d random w)
  /\ callback (Spinner.spin onStop d random w) finished w'
     = callback (LiquedGalas.spin onStop d random w) finished w'
  /\ Spinner.data items s = LiquedGalas.data items s.
Proof. repeat split; reflexivity. Qed.

(** ** Slice geometry *)

Lemma num_S (n : nat) : num (S n) == num n + 1.
Proof.
  unfold num. rewrite Nat2Z.inj_succ, <- Z.add_1_r, inject_Z_plus.
  reflexivity.
Qed.

Lemma lookup_map_seq {B : Type} (f : nat -> B) (n i : nat) :
  map f (seq 0 n) !! i = (if (i <? n)%nat then Some (f i) else None).
Proof.
  change (map f (seq 0 n)) with (f <$> seq 0 n). rewrite list_lookup_fmap.
  destruct (Nat.ltb_spec i n) as [Hi|Hi].
  - now rewrite lookup_seq_lt.
  - now rewrite lookup_seq_ge.
Qed.

Lemma Qle_bool_true (a b : Q) : a <= b -> Qle_bool a b = true.
Proof. apply Qle_bool_iff. Qed.

Lemma Qle_bool_false (a b : Q) : b < a -> Qle_bool a b = false.
Proof.
  intros H. destruct (Qle_bool a b) eqn:E; [|reflexivity].
  apply Qle_bool_iff in E. lra.
Qed.

Lemma min_cases (a b : Q) :
  (a <= b /\ Js.min a b = a) \/ (b < a /\ Js.min a b = b).
Proof.
  unfold Js.min. destruct (Qle_bool a b) eqn:E.
  - left. split; [now apply Qle_bool_iff | reflexivity].
  - right. split; [|reflexivity]. apply Qnot_le_lt. intros H.
    apply Qle_bool_iff in H. congruence.
Qed.

Lemma max_cases (a b : Q) :
  (a <= b /\ Js.max a b = b) \/ (b < a /\ Js.max a b = a).
Proof.
  unfold Js.max. destruct (Qle_bool a b) eqn:E.
  - left. split; [now apply Qle_bool_iff | reflexivity].
  - right. split; [|reflexivity]. apply Qnot_le_lt. intros H.
    apply Qle_bool_iff in H. congruence.
Qed.

Lemma segAngle_45 : Spinner.segAngle == 45.
Proof. reflexivity. Qed.

Lemma segStart_eq (i : nat) : Spinner.segStart i == num i * 45.
Proof. unfold Spinner.segStart, Spinner.segAngle. change (num Spinner.SEGMENTS) with 8. field. Qed.

Lemma start_eq (i : nat) : Spinner.start i == num i * 45 + 2.
Proof.
  unfold Spinner.start, Spinner.segStart, Spinner.gapDeg.
  rewrite segAngle_45. field.
Qed.

Lemma end_eq (i : nat) : Spinner.end_ i == num i * 45 + 43.
Proof.
  unfold Spinner.end_, Spinner.segEnd, Spinner.segStart, Spinner.gapDeg.
  rewrite segAngle_45. field.
Qed.

Lemma slice_span_minor (i : nat) :
  Qle_bool (Spinner.end_ i - Spinner.start i) 180 = true.
Proof. apply Qle_bool_true. rewrite start_eq, end_eq. lra. Qed.

Lemma slices_unfold (cos sin : Q -> Q) (PI size : Q) (tapered : bool) :
  Spinner.slices cos sin PI size tapered
  = map (Spinner.slice_at cos sin PI size tapered) (seq 0 8).
Proof. reflexivity. Qed.

Lemma large_arc_cases (s e : Q) :
  exists la : Z,
    (if Qle_bool (e - s) 180 then 0%Z else 1%Z) = la
    /\ ((la = 0%Z /\ e - s <= 180) \/ (la = 1%Z /\ 180 < e - s)).
Proof.
  destruct (Qle_bool (e - s) 180) eqn:E; eexists; (split; [reflexivity|]).
  - left. split; [reflexivity|]. now apply Qle_bool_iff.
  - right. split; [reflexivity|]. apply Qnot_le_lt. intros H.
    apply Qle_bool_iff in H. congruence.
Qed.



(** *** Where the points of a slice lie *)

Lemma num_lt (i n : nat) : (i < n)%nat -> num i + 1 <= num n.
Proof.
  intros H. unfold num. change 1 with (inject_Z 1).
  rewrite <- inject_Z_plus, <- Zle_Qle. lia.
Qed.

Lemma num_le (i n : nat) : (i <= n)%nat -> num i <= num n.
Proof. intros H. unfold num. rewrite <- Zle_Qle. lia. Qed.

Section Quadrants.

Variables (cos sin : Q -> Q) (PI : Q).
Hypothesis trig : trig_signs cos sin PI.

(** A point at a positive radius and at an angle inside the drawn slice
    [i] lies in the quadrant of that slice. *)
Lemma vertex_quadrant (i : nat) (cx cy rho a : Q) :
  (i < 8)%nat -> 0 < rho ->
  Spinner.start i <= a -> a <= Spinner.end_ i ->
  in_quadrant_of i cx cy (Spinner.polarToCartesian cos sin PI cx cy rho a).
Proof.
  intros Hi Hrho Ha0 Ha1. rewrite start_eq in Ha0. rewrite end_eq in Ha1.
  pose proof (num_nonneg i) as Hn0.
  assert (Hn7 : num i <= 7) by (apply (num_le i 7); lia).
  unfold in_quadrant_of, Spinner.polarToCartesian. cbn [Point.x Point.y].
  repeat split.
  - intros H. pose proof (num_le i 3 ltac:(lia)) as Hn. change (num 3) with 3 in Hn.
    assert (Hc : 0 < cos ((a - 90) * PI / 180))
      by (apply (cos_right _ _ _ trig); lra).
    pose proof (Qmult_lt_0_compat _ _ Hrho Hc). lra.
  - intros H. pose proof (num_le 4 i H) as Hn. change (num 4) with 4 in Hn.
    assert (Hc : cos ((a - 90) * PI / 180) < 0)
      by (apply (cos_left _ _ _ trig); lra).
    assert (Hm : 0 < rho * - cos ((a - 90) * PI / 180))
      by (apply Qmult_lt_0_compat; lra).
    assert (E : rho * - cos ((a - 90) * PI / 180)
                == - (rho * cos ((a - 90) * PI / 180))) by ring.
    rewrite E in Hm. lra.
  - intros [H2 H6].
    pose proof (num_le 2 i H2) as Hn. change (num 2) with 2 in Hn.
    pose proof (num_le i 5 ltac:(lia)) as Hn'. change (num 5) with 5 in Hn'.
    assert (Hs : 0 < sin ((a - 90) * PI / 180))
      by (apply (sin_down _ _ _ trig); lra).
    pose proof (Qmult_lt_0_compat _ _ Hrho Hs). lra.
  - intros H.
    assert (Hs : sin ((a - 90) * PI / 180) < 0).
    { destruct H as [H|H].
      - pose proof (num_le i 1 ltac:(lia)) as Hn. change (num 1) with 1 in Hn.
        apply (sin_up_right _ _ _ trig); lra.
      - pose proof (num_le 6 i H) as Hn. change (num 6) with 6 in Hn.
        apply (sin_up_left _ _ _ trig); lra. }
    assert (Hm : 0 < rho * - sin ((a - 90) * PI / 180))
      by (apply Qmult_lt_0_compat; lra).
    assert (E : rho * - sin ((a - 90) * PI / 180)
                == - (rho * sin ((a - 90) * PI / 180))) by ring.
    rewrite E in Hm. lra.
Qed.

End Quadrants.

Lemma tri_signs : trig_signs tri_cos tri_sin 3.
Proof.
  assert (E : forall a, (a - 90) * 3 / 180 == (a - 90) * (1 # 60))
    by (intros; field).
  split; intros a H0 H1; unfold tri_cos, tri_sin.
  - rewrite E. apply Qabs_case; intros; lra.
  - rewrite E. apply Qabs_case; intros; lra.
  - assert (E2 : (a - 90) * 3 / 180 - (3 # 2) == (a - 180) * (1 # 60))
      by field.
    rewrite E2. apply Qabs_case; intros; lra.
  - assert (E2 : (a - 90) * 3 / 180 - (3 # 2) == (a - 180) * (1 # 60))
      by field.
    rewrite E2. apply Qabs_case; intros; lra.
  - assert (E2 : (a - 90) * 3 / 180 - (3 # 2) == (a - 180) * (1 # 60))
      by field.
    rewrite E2. apply Qabs_case; intros; lra.
Qed.

(** *** The inset radii of a donut slice *)

Lemma lit_0_05 : Js.lit 0.05 == 3602879701896397 # 72057594037927936.
Proof. reflexivity. Qed.

(** Both radii of a donut slice are positive whenever the ring they are
    taken from has a positive outer radius and an inner radius of at
    least 3. *)
Lemma donut_radii_positive (rOuter rInner : Q) :
  0 < rOuter -> 3 <= rInner ->
  0 < rOuter [-] (rOuter [-] rInner) [*] Js.lit 0.05
  /\ 0 < rInner [+] (rOuter [-] rInner) [*] Js.lit 0.05.
Proof.
  intros HO HI.
  change (rOuter [-] rInner) with (B64.round (rOuter - rInner)).
  set (d := B64.round (rOuter - rInner)).
  assert (Hd : (0 <= rOuter - rInner
                /\ rOuter - rInner - (rOuter - rInner + 1) * (1 # 1125899906842624) <= d
                /\ d <= rOuter - rInner + (rOuter - rInner + 1) * (1 # 1125899906842624))
               \/ (rOuter - rInner <= 0
                   /\ rOuter - rInner - (1 - (rOuter - rInner)) * (1 # 1125899906842624) <= d
                   /\ d <= rOuter - rInner + (1 - (rOuter - rInner)) * (1 # 1125899906842624))).
  { destruct (Qlt_le_dec (rOuter - rInner) 0) as [H|H].
    - right. apply Qlt_le_weak in H.
      destruct (round_within_neg _ H). now repeat split.
    - left. destruct (round_within_nonneg _ H). now repeat split. }
  clearbody d.
  unfold Js.mul. rewrite lit_0_05.
  set (c := 3602879701896397 # 72057594037927936).
  set (t := B64.round (d * c)).
  assert (Ht : (0 <= d * c
                /\ d * c - (d * c + 1) * (1 # 1125899906842624) <= t
                /\ t <= d * c + (d * c + 1) * (1 # 1125899906842624))
               \/ (d * c <= 0
                   /\ d * c - (1 - d * c) * (1 # 1125899906842624) <= t
                   /\ t <= d * c + (1 - d * c) * (1 # 1125899906842624))).
  { destruct (Qlt_le_dec (d * c) 0) as [H|H].
    - right. apply Qlt_le_weak in H.
      destruct (round_within_neg _ H). now repeat split.
    - left. destruct (round_within_nonneg _ H). now repeat split. }
  clearbody t. unfold c in Ht. clear c.
  unfold Js.sub, Js.add.
  split.
  - destruct (Qlt_le_dec (rOuter - t) 0) as [H|H].
    + exfalso. destruct Hd as [Hd|Hd], Ht as [Ht|Ht]; lra.
    + destruct (round_within_nonneg _ H) as [Hlo _].
      destruct (Qlt_le_dec rOuter 1);
        destruct Hd as [Hd|Hd], Ht as [Ht|Ht]; lra.
  - destruct (Qlt_le_dec (rInner + t) 0) as [H|H].
    + exfalso. destruct Hd as [Hd|Hd], Ht as [Ht|Ht]; lra.
    + destruct (round_within_nonneg _ H) as [Hlo _].
      destruct Hd as [Hd|Hd], Ht as [Ht|Ht]; lra.
Qed.

Lemma tip_angles (i : nat) :
  Js.min 8 ((Spinner.end_ i - Spinner.start i) / 3) = 8.
Proof.
  destruct (min_cases 8 ((Spinner.end_ i - Spinner.start i) / 3))
    as [[_ E]|[H _]]; [exact E|].
  exfalso. revert H. rewrite start_eq, end_eq.
  assert (E : (num i * 45 + 43 - (num i * 45 + 2)) / 3 == 41 # 3) by field.
  rewrite E. intros H. discriminate H.
Qed.



(** * Further properties *)

(** ** Selection and travel of a spin *)

(** X1 — every segment has the same share of the draw: [spin] selects
    segment [i] exactly when [Math.random()] falls in
    [[i / 8, (i + 1) / 8)]. *)
Theorem targetIndex_bucket (random : Q) (i : Z) :
  targetIndexOf random = i
  <-> inject_Z i / 8 <= random /\ random < (inject_Z i + 1) / 8.
Proof.
  unfold targetIndexOf, Js.floor. change (num 8) with 8.
  rewrite Qfloor_eq.
  assert (E1 : inject_Z i / 8 == inject_Z i * (1 # 8)) by field.
  assert (E2 : (inject_Z i + 1) / 8 == (inject_Z i + 1) * (1 # 8)) by field.
  rewrite E1, E2. split; intros [H1 H2]; split; lra.
Qed.

(** X2 — every spin from a rotation of magnitude at most [2 ^ 51] turns
    the wheel by more than 5 and less than 7 full turns, whatever the
    draw and whatever the landing computation rounds. *)
Theorem spin_travel_bounds (onStop : bool) (d : ref) (random : Q) (w : World) :
  0 <= random -> random < 1 ->
  - exact_range <= rotation_value w -> rotation_value w <= exact_range ->
  5 * 360 < rotation_value w - toValue (Spinner.spin onStop d random w)
  /\ rotation_value w - toValue (Spinner.spin onStop d random w) < 7 * 360.
Proof.
  intros Hlo Hhi Hr0 Hr1.
  destruct (spin_travel_rounded onStop d random w Hlo Hhi Hr0 Hr1).
  split; lra.
Qed.

Lemma spin_travel_bounds_witness :
  5 * 360 < 7383.3 - toValue (Spinner.spin true 0%nat (7 # 8)
                                {| arrays := ∅; rotation_value := 7383.3 |})
  /\ 7383.3 - toValue (Spinner.spin true 0%nat (7 # 8)
                         {| arrays := ∅; rotation_value := 7383.3 |}) < 7 * 360.
Proof.
  apply (spin_travel_bounds true 0%nat (7 # 8)
           {| arrays := ∅; rotation_value := 7383.3 |}).
  - vm_compute. discriminate.
  - reflexivity.
  - vm_compute. discriminate.
  - vm_compute. discriminate.
Defined.

(** ** Spins in sequence *)

Lemma spin_all_snoc onStop d draws u w :
  spin_all onStop d (draws ++ [u]) w
  = settle (Spinner.spin onStop d u (spin_all onStop d draws w))
           (spin_all onStop d draws w).
Proof. unfold spin_all. now rewrite fold_left_app. Qed.

(** X3 — spins in sequence.  From any rotation up to [2 ^ 49] in
    magnitude, through up to [2 ^ 37] completed spins, the rotation lies
    between [7 * 360 * n] and [5 * 360 * n] degrees below where it
    started after [n] spins; after the first spin it is a multiple of
    0.5, and its normalised value depends on the last draw only: it is
    [360] minus the centre of the last target. *)
Theorem spin_all_accumulates
  (onStop : bool) (d : ref) (draws : list Q) (w : World) :
  Forall (fun u => 0 <= u /\ u < 1) draws ->
  - landing_range <= 2 * rotation_value w ->
  2 * rotation_value w <= landing_range ->
  (Z.of_nat (List.length draws) <= 2 ^ 37)%Z ->
  rotation_value (spin_all onStop d draws w)
  <= rotation_value w - 5 * 360 * num (List.length draws)
  /\ rotation_value w - 7 * 360 * num (List.length draws)
     <= rotation_value (spin_all onStop d draws w)
  /\ forall u, last draws = Some u ->
       half_integer (rotation_value (spin_all onStop d draws w))
       /\ normalize (rotation_value (spin_all onStop d draws w))
          == 360 - (inject_Z (targetIndexOf u) * 45 + 22.5).
Proof.
  intros HF Hr0 Hr1.
  induction draws as [|u draws IH] using rev_ind; intros Hn.
  - cbn. split; [|split]; [change (num 0) with 0; lra ..| discriminate].
  - apply Forall_app in HF as [HF Hu].
    apply Forall_singleton in Hu as [Hlo Hhi].
    rewrite length_app in Hn. cbn [List.length] in Hn.
    destruct (IH HF ltac:(lia)) as (IH1 & IH2 & _).
    rewrite spin_all_snoc, length_app. cbn [List.length settle rotation_value].
    replace (List.length draws + 1)%nat with (S (List.length draws)) by lia.
    rewrite num_S.
    set (w' := spin_all onStop d draws w) in *.
    pose proof (num_nonneg (List.length draws)) as Hn0.
    assert (Hn1 : num (List.length draws) <= 137438953472).
    { unfold num. change 137438953472 with (inject_Z (2 ^ 37)).
      rewrite <- Zle_Qle. lia. }
    assert (Hw0 : - landing_range <= rotation_value w')
      by (unfold landing_range in *; lra).
    assert (Hw1 : rotation_value w' <= landing_range)
      by (unfold landing_range in *; lra).
    destruct (spin_travel_rounded onStop d u w' Hlo Hhi) as [T1 T2];
      [unfold landing_range, exact_range in *; lra ..|].
    split; [lra|]. split; [lra|].
    intros u' Hlast. rewrite last_snoc in Hlast. injection Hlast as <-.
    now apply spin_rest_angle.
Qed.

Lemma spin_all_accumulates_witness :
  rotation_value (spin_all true 0%nat [3 # 8; 0; 7 # 8]
                    {| arrays := ∅; rotation_value := 100.3 |})
  <= 100.3 - 5 * 360 * num (List.length [3 # 8; 0; 7 # 8])
  /\ 100.3 - 7 * 360 * num (List.length [3 # 8; 0; 7 # 8])
     <= rotation_value (spin_all true 0%nat [3 # 8; 0; 7 # 8]
                          {| arrays := ∅; rotation_value := 100.3 |})
  /\ forall u, last [3 # 8; 0; 7 # 8] = Some u ->
       half_integer
         (rotation_value (spin_all true 0%nat [3 # 8; 0; 7 # 8]
                            {| arrays := ∅; rotation_value := 100.3 |}))
       /\ normalize
            (rotation_value (spin_all true 0%nat [3 # 8; 0; 7 # 8]
                               {| arrays := ∅; rotation_value := 100.3 |}))
          == 360 - (inject_Z (targetIndexOf u) * 45 + 22.5).
Proof.
  apply (spin_all_accumulates true 0%nat [3 # 8; 0; 7 # 8]
           {| arrays := ∅; rotation_value := 100.3 |}).
  - repeat constructor; vm_compute; discriminate.
  - vm_compute. discriminate.
  - vm_compute. discriminate.
  - vm_compute. discriminate.
Defined.

(** ** Normalising twice *)

(** X4 — normalising is idempotent: [data] applied to the array it
    returned gives back that same array and leaves the store as it is. *)
Theorem data_idempotent
  (s : store) (items : ref) (l : list slot) (d : ref) (s' : store) :
  s !! items = Some l ->
  Spinner.data items s = Some (d, s') ->
  Spinner.data d s' = Some (d, s').
Proof.
  intros Hs Hd. pose proof (data_result s items l d s' Hs Hd) as Hl.
  apply (data_same s' d _ Hl), length_take_padded.
Qed.

Lemma data_idempotent_witness :
  Spinner.data 2%nat
    (<[2%nat := [Some item_k; None; None; None; None; None; None; None]]>
       (<[1%nat := [Some item_k; None; None; None; None; None; None; None]]>
          ({[ 0%nat := [Some item_k] ]} : store)))
  = Some (2%nat,
          <[2%nat := [Some item_k; None; None; None; None; None; None; None]]>
            (<[1%nat := [Some item_k; None; None; None; None; None; None; None]]>
               ({[ 0%nat := [Some item_k] ]} : store))).
Proof.
  apply (data_idempotent {[ 0%nat := [Some item_k] ]} 0%nat [Some item_k]).
  - reflexivity.
  - vm_compute. reflexivity.
Defined.

(** ** Loops that push *)

Lemma fold_push {A B : Type} (f : A -> B) (l : list A) (acc : list B) :
  fold_left (fun arr i => arr ++ [f i]) l acc = acc ++ map f l.
Proof.
  revert acc. induction l as [|a l IH]; intros acc; cbn.
  - now rewrite app_nil_r.
  - now rewrite IH, <- app_assoc.
Qed.

Section Wheel.

Variables (cos sin : Q -> Q) (PI : Q).

Lemma ringDotPositions_map (cx cy r : Q) (count : nat) :
  Spinner.ringDotPositions cos sin PI cx cy r count
  = map (fun i => Spinner.polarToCartesian cos sin PI cx cy r
                    (num i * (360 / num count)))
        (seq 0 count).
Proof. unfold Spinner.ringDotPositions. cbv zeta. now rewrite fold_push. Qed.

Lemma dot_angle_range (count i : nat) :
  (i < count)%nat ->
  0 <= num i * (360 / num count) /\ num i * (360 / num count) < 360.
Proof.
  intros Hi.
  assert (Hc : 0 < num count) by (apply num_pos; lia).
  assert (Hs : 0 < 360 / num count) by (apply Qlt_shift_div_l; lra).
  assert (Ht : num count * (360 / num count) == 360) by (field; lra).
  assert (Hn : num i + 1 <= num count).
  { unfold num. change 1 with (inject_Z 1).
    rewrite <- inject_Z_plus, <- Zle_Qle. lia. }
  pose proof (num_nonneg i) as H0.
  set (a := 360 / num count) in *.
  assert (H1 : 0 <= num i * a) by (apply Qmult_le_0_compat; lra).
  assert (H2 : (num i + 1) * a <= num count * a)
    by (apply Qmult_le_compat_r; lra).
  split; [exact H1|]. rewrite <- Ht. lra.
Qed.

Lemma ringDotPositions_lookup (cx cy r : Q) (count i : nat) :
  (i < count)%nat ->
  List.length (Spinner.ringDotPositions cos sin PI cx cy r count) = count
  /\ Spinner.ringDotPositions cos sin PI cx cy r count !! i
     = Some (Spinner.polarToCartesian cos sin PI cx cy r
               (num i * (360 / num count))).
Proof.
  intros Hi. rewrite ringDotPositions_map.
  split; [now rewrite length_map, length_seq|].
  rewrite lookup_map_seq. now destruct (Nat.ltb_spec i count); [|lia].
Qed.

(** X5 — [ringDotPositions] returns [count] points; point [i] is at
    angle [i * (360 / count)], which lies in [[0, 360)], one step of
    [360 / count] before the next. *)
Theorem ringDotPositions_spec (cx cy r : Q) (count i : nat) :
  (i < count)%nat ->
  List.length (Spinner.ringDotPositions cos sin PI cx cy r count) = count
  /\ Spinner.ringDotPositions cos sin PI cx cy r count !! i
     = Some (Spinner.polarToCartesian cos sin PI cx cy r
               (num i * (360 / num count)))
  /\ 0 <= num i * (360 / num count)
  /\ num i * (360 / num count) < 360
  /\ num (S i) * (360 / num count) - num i * (360 / num count)
     == 360 / num count.
Proof.
  intros Hi. destruct (ringDotPositions_lookup cx cy r count i Hi) as [Hl Hk].
  split; [exact Hl|]. split; [exact Hk|].
  destruct (dot_angle_range count i Hi) as [H1 H2].
  split; [exact H1|]. split; [exact H2|]. rewrite num_S. ring.
Qed.

End Wheel.

Lemma ringDotPositions_spec_witness :
  List.length (Spinner.ringDotPositions (fun _ => 1) (fun _ => 0) 3
                 148 148 139 9) = 9%nat
  /\ Spinner.ringDotPositions (fun _ => 1) (fun _ => 0) 3 148 148 139 9 !! 4%nat
     = Some (Spinner.polarToCartesian (fun _ => 1) (fun _ => 0) 3 148 148 139
               (num 4 * (360 / num 9)))
  /\ 0 <= num 4 * (360 / num 9)
  /\ num 4 * (360 / num 9) < 360
  /\ num 5 * (360 / num 9) - num 4 * (360 / num 9) == 360 / num 9.
Proof.
  apply (ringDotPositions_spec (fun _ => 1) (fun _ => 0) 3 148 148 139 9 4).
  lia.
Defined.

(** ** Dots, icons and slices of the wheel *)

Lemma midAngle_eq (i : nat) : Spinner.midAngle i == num i * 45 + 22.5.
Proof. unfold Spinner.midAngle. rewrite segAngle_45. field. Qed.

Section Wheel.

Variables (cos sin : Q -> Q) (PI size : Q) (tapered : bool).

Lemma iconPositions_map :
  Spinner.iconPositions cos sin PI size tapered
  = map (fun i => Spinner.polarToCartesian cos sin PI
                    (Spinner.radius size) (Spinner.radius size)
                    (Spinner.iconRadius size tapered) (Spinner.midAngle i))
        (seq 0 8).
Proof. reflexivity. Qed.

(** X6 — the coral rim has 9 dots, 40 degrees apart, on the circle
    midway between the edge of the wheel and the outer edge of the rim,
    at distance 9 from each. *)
Theorem coral_dots_mid_band (i : nat) :
  (i < 9)%nat ->
  List.length (Spinner.coralDots cos sin PI size) = 9%nat
  /\ Spinner.coralDots cos sin PI size !! i
     = Some (Spinner.polarToCartesian cos sin PI
               (Spinner.outerRadius size) (Spinner.outerRadius size)
               (Spinner.coralDotTrackR size) (num i * (360 / num 9)))
  /\ num i * (360 / num 9) == num i * 40
  /\ Spinner.outerRadius size - Spinner.coralDotTrackR size == 9
  /\ Spinner.coralDotTrackR size - Spinner.radius size == 9.
Proof.
  intros Hi.
  destruct (ringDotPositions_lookup cos sin PI
              (Spinner.outerRadius size) (Spinner.outerRadius size)
              (Spinner.coralDotTrackR size) 9 i Hi)
    as (Hlen & Hlk).
  split; [exact Hlen|]. split; [exact Hlk|].
  unfold Spinner.coralDotTrackR, Spinner.outerRadius, Spinner.outerSize,
    Spinner.CORAL_PAD, Spinner.radius.
  change (num 9) with 9.
  repeat split; field.
Qed.


End Wheel.

Lemma coral_dots_mid_band_witness :
  List.length (Spinner.coralDots (fun _ => 1) (fun _ => 0) 3 260) = 9%nat
  /\ Spinner.coralDots (fun _ => 1) (fun _ => 0) 3 260 !! 8%nat
     = Some (Spinner.polarToCartesian (fun _ => 1) (fun _ => 0) 3
               (Spinner.outerRadius 260) (Spinner.outerRadius 260)
               (Spinner.coralDotTrackR 260) (num 8 * (360 / num 9)))
  /\ num 8 * (360 / num 9) == num 8 * 40
  /\ Spinner.outerRadius 260 - Spinner.coralDotTrackR 260 == 9
  /\ Spinner.coralDotTrackR 260 - Spinner.radius 260 == 9.
Proof.
  apply (coral_dots_mid_band (fun _ => 1) (fun _ => 0) 3 260 8). lia.
Defined.

(** X8 — the reported slot is the one whose icon comes to rest at the
    pointer: from any rotation up to [2 ^ 50] in magnitude, for the
    index [i] that [spin] hands to [onStop], the new rotation plus the
    angle at which [iconPositions] places icon [i] is a whole number of
    turns. *)
Theorem spin_lands_icon (onStop : bool) (d : ref) (random : Q) (w : World) :
  0 <= random -> random < 1 ->
  - landing_range <= rotation_value w -> rotation_value w <= landing_range ->
  exists (i : nat) (m : Z),
    targetIndexOf random = Z.of_nat i
    /\ (i < 8)%nat
    /\ toValue (Spinner.spin onStop d random w) + Spinner.midAngle i
       == 360 * inject_Z m.
Proof.
  intros Hlo Hhi Hr0 Hr1.
  destruct (targetIndexOf_range random Hlo Hhi) as [H0 H8].
  destruct (spin_lands_exactly onStop d random w Hlo Hhi Hr0 Hr1)
    as (m & Hm & _).
  exists (Z.to_nat (targetIndexOf random)), (m - 5)%Z.
  split; [lia|]. split; [lia|].
  rewrite Hm, midAngle_eq.
  unfold num. rewrite Z2Nat.id by lia. unfold Z.sub. rewrite inject_Z_plus.
  change (inject_Z (- (5))) with (-5). ring.
Qed.

Lemma spin_lands_icon_witness :
  exists (i : nat) (m : Z),
    targetIndexOf (3 # 8) = Z.of_nat i
    /\ (i < 8)%nat
    /\ toValue (Spinner.spin true 0%nat (3 # 8)
                  {| arrays := ∅; rotation_value := -912.7 |})
       + Spinner.midAngle i
       == 360 * inject_Z m.
Proof.
  apply (spin_lands_icon true 0%nat (3 # 8)
           {| arrays := ∅; rotation_value := -912.7 |}).
  - vm_compute. discriminate.
  - reflexivity.
  - vm_compute. discriminate.
  - vm_compute. discriminate.
Defined.

(** ** Shapes of the slices *)

Section Shapes.

Variables (cos sin : Q -> Q) (PI : Q).

(** X9 — every arc of every slice of the wheel is a minor arc: the
    drawn slices span 41 degrees, so all large-arc flags are 0, in both
    shapes. *)
Theorem wheel_arcs_minor (size : Q) (tapered : bool) :
  Forall (fun s => Forall (fun f => fst f = 0%Z) (arc_flags (path s)))
         (Spinner.slices cos sin PI size tapered).
Proof.
  rewrite slices_unfold. apply List.Forall_forall. intros s Hs.
  apply in_map_iff in Hs as (i & <- & _).
  unfold Spinner.slice_at. cbn [path].
  destruct tapered;
    unfold Spinner.roundedWedgePath, Spinner.donutSlicePath;
    cbn [arc_flags flat_map app]; rewrite slice_span_minor;
    repeat constructor.
Qed.

(** X10 — a donut slice stays inside the ring it is asked for: for a
    ring at least 1 thick with an outer radius of at most 1024, its arcs
    have radii [ri < ro] with [rInner < ri] and [ro < rOuter], and keep
    nine tenths of the thickness up to [2 ^ -36], the rounding of the
    four binary64 operations that compute them. *)
Theorem donut_inset_within (cx cy rOuter rInner s e : Q) :
  0 <= rInner -> rInner + 1 <= rOuter -> rOuter <= 1024 ->
  exists ro ri : Q,
    arc_radii (Spinner.donutSlicePath cos sin PI cx cy rOuter rInner s e)
    = [(ro, ro); (ri, ri)]
    /\ rInner < ri /\ ri < ro /\ ro < rOuter
    /\ Qabs (ro - ri - 0.9 * (rOuter - rInner)) <= 1 # 68719476736.
Proof.
  intros HI HO Hmax. eexists _, _. split; [reflexivity|].
  change (rOuter [-] rInner) with (B64.round (rOuter - rInner)).
  destruct (round_within_nonneg (rOuter - rInner) ltac:(lra)) as [D1 D2].
  set (d := B64.round (rOuter - rInner)) in *. clearbody d.
  unfold Js.mul. rewrite lit_0_05.
  assert (Hdc : 0 <= d * (3602879701896397 # 72057594037927936)) by lra.
  destruct (round_within_nonneg _ Hdc) as [T1 T2].
  set (t := B64.round (d * (3602879701896397 # 72057594037927936))) in *.
  clearbody t.
  unfold Js.sub, Js.add.
  destruct (round_within_nonneg (rOuter - t) ltac:(lra)) as [O1 O2].
  destruct (round_within_nonneg (rInner + t) ltac:(lra)) as [I1 I2].
  split; [lra|]. split; [lra|]. split; [lra|].
  apply Qabs_Qle_condition. split; lra.
Qed.


End Shapes.

Lemma donut_inset_within_witness :
  exists ro ri : Q,
    arc_radii (Spinner.donutSlicePath (fun _ => 1) (fun _ => 0) 3
                 130 130 124 (Js.lit 75.4) 2 43)
    = [(ro, ro); (ri, ri)]
    /\ Js.lit 75.4 < ri /\ ri < ro /\ ro < 124
    /\ Qabs (ro - ri - 0.9 * (124 - Js.lit 75.4)) <= 1 # 68719476736.
Proof.
  apply (donut_inset_within (fun _ => 1) (fun _ => 0) 3
           130 130 124 (Js.lit 75.4) 2 43).
  - vm_compute. discriminate.
  - vm_compute. discriminate.
  - vm_compute. discriminate.
Defined.

(** At the radii of the default wheel the inset radii are the binary64
    numbers 121.57 and 77.83000000000001. *)
Example donut_inset_radii_260 :
  arc_radii (Spinner.donutSlicePath (fun _ => 1) (fun _ => 0) 3
               130 130 124 (Js.lit 75.4) 2 43)
  = [(124 [-] (124 [-] Js.lit 75.4) [*] Js.lit 0.05,
      124 [-] (124 [-] Js.lit 75.4) [*] Js.lit 0.05);
     (Js.lit 75.4 [+] (124 [-] Js.lit 75.4) [*] Js.lit 0.05,
      Js.lit 75.4 [+] (124 [-] Js.lit 75.4) [*] Js.lit 0.05)]
  /\ 124 [-] (124 [-] Js.lit 75.4) [*] Js.lit 0.05 == Js.lit 121.57
  /\ Js.lit 75.4 [+] (124 [-] Js.lit 75.4) [*] Js.lit 0.05
     == Js.lit 77.83000000000001
  /\ ~ Js.lit 77.83000000000001 == Js.lit 77.83.
Proof.
  split; [reflexivity|]. split; [reflexivity|]. split; [reflexivity|].
  vm_compute. discriminate.
Qed.


(** X12 — the radii [slices] passes are in order only for a wheel that
    is large enough: the tip radius of a wedge does not exceed its outer
    radius exactly when [size >= 24], and the inner radius of a donut
    slice is below its outer radius exactly when [size > 200 / 7]. *)
Theorem slice_radii_ordered (size : Q) :
  (Js.max 6 (Spinner.radius size * 0.06) <= Spinner.radius size - 6
   <-> 24 <= size)
  /\ (Spinner.innerRadius size < Spinner.radius size - 6
      <-> 200 / 7 < size).
Proof.
  unfold Spinner.innerRadius, Spinner.radius.
  assert (E : size == 2 * (size / 2)) by field.
  assert (E2 : 200 / 7 == 200 # 7) by reflexivity.
  rewrite E2. revert E. generalize (size / 2). intros r E. split.
  - destruct (max_cases 6 (r * 0.06)) as [[Hm ->]|[Hm ->]];
      split; intros H; lra.
  - split; intros H; lra.
Qed.

(** ** Overlay, fills and labels *)

Section Overlay.

Variables (cos sin : Q -> Q) (PI size : Q) (tapered : bool).


(** X14 — neighbouring slices never share a fill, the last and the
    first included. *)
Theorem slice_fills_alternate (i : nat) :
  (i < 8)%nat ->
  exists a b : Slice,
    Spinner.slices cos sin PI size tapered !! i = Some a
    /\ Spinner.slices cos sin PI size tapered !! ((i + 1) mod 8)%nat = Some b
    /\ fill a <> fill b.
Proof.
  intros Hi. rewrite slices_unfold.
  do 8 (destruct i as [|i];
        [eexists _, _; split; [reflexivity|]; split; [reflexivity|];
         cbn; discriminate|]).
  lia.
Qed.

End Overlay.

Lemma slice_fills_alternate_witness :
  exists a b : Slice,
    Spinner.slices (fun _ => 1) (fun _ => 0) 3 260 true !! 7%nat = Some a
    /\ Spinner.slices (fun _ => 1) (fun _ => 0) 3 260 true
         !! ((7 + 1) mod 8)%nat = Some b
    /\ fill a <> fill b.
Proof.
  apply (slice_fills_alternate (fun _ => 1) (fun _ => 0) 3 260 true 7). lia.
Defined.

(** What a label shows: nothing for an empty slot, otherwise the text,
    12 points up and left of the icon position. *)
Lemma label_at_in_range (pos : list Point.t) (it : slot) (i : nat) (p : Point.t) :
  pos !! i = Some p ->
  Spinner.label_at pos it i
  = Some (match Spinner.shown_label it with
          | Some l => Some {| Spinner.Label.left := Point.x p - 12;
                              Spinner.Label.top := Point.y p - 12;
                              Spinner.Label.text := l |}
          | None => None
          end).
Proof.
  intros Hp. unfold Spinner.label_at. rewrite Hp.
  now destruct (Spinner.shown_label it).
Qed.

Lemma labels_from_spec (pos : list Point.t) :
  forall (data : list slot) (i : nat),
    (i + List.length data <= List.length pos)%nat ->
    exists vs : list (option Spinner.Label.t),
      Spinner.labels_from pos i data = Some vs
      /\ List.length vs = List.length data
      /\ forall (j : nat) (it : slot),
           data !! j = Some it ->
           exists p : Point.t,
             pos !! (i + j)%nat = Some p
             /\ Spinner.label_at pos it (i + j) = vs !! j.
Proof.
  induction data as [|it data IH]; intros i Hlen.
  - exists []. split; [reflexivity|]. split; [reflexivity|].
    intros j x Hj. discriminate.
  - cbn [List.length] in Hlen.
    destruct (lookup_lt_is_Some_2 pos i) as [p Hp]; [lia|].
    destruct (IH (S i)) as (vs & Hvs & Hl & Hget); [lia|].
    pose proof (label_at_in_range pos it i p Hp) as Hv.
    cbn [Spinner.labels_from]. rewrite Hv, Hvs.
    eexists. split; [reflexivity|].
    split; [cbn [List.length]; now rewrite Hl|].
    intros [|j] x Hj.
    + cbn in Hj. injection Hj as <-. exists p.
      rewrite Nat.add_0_r. split; [exact Hp | exact Hv].
    + cbn in Hj. destruct (Hget j x Hj) as (q & Hq & Hw).
      exists q. replace (i + S j)%nat with (S i + j)%nat by lia.
      split; [exact Hq | exact Hw].
Qed.

Lemma labels_from_overflow (pos : list Point.t) (it : slot) :
  Spinner.shown_label it <> None ->
  forall (data : list slot) (i : nat),
    (List.length pos <= i + List.length data)%nat ->
    Spinner.labels_from pos i (data ++ [it]) = None.
Proof.
  intros Hit. induction data as [|x data IH]; intros i Hlen.
  - cbn [List.length] in Hlen. cbn [app Spinner.labels_from].
    unfold Spinner.label_at.
    destruct (Spinner.shown_label it); [|contradiction].
    now rewrite (lookup_ge_None_2 pos i) by lia.
  - cbn [List.length] in Hlen. cbn [app Spinner.labels_from].
    destruct (Spinner.label_at pos x i); [|reflexivity].
    now rewrite (IH (S i)) by lia.
Qed.

(** X15 — placing the labels never reads a missing icon position.  For
    the array [data] returns, whatever the caller's items, the label
    pass succeeds with 8 entries; entry [i] is [null] when slot [i] is
    empty or has no (or an empty) label, and otherwise its label 12
    points up and left of icon position [i].  A ninth, labelled entry
    would make the pass throw. *)
Theorem labels_after_data
  (cos sin : Q -> Q) (PI size : Q) (tapered : bool)
  (s : store) (items : ref) (l0 : list slot) (d : ref) (s' : store)
  (i : nat) (extra : slot) :
  s !! items = Some l0 ->
  Spinner.data items s = Some (d, s') ->
  (i < 8)%nat ->
  Spinner.shown_label extra <> None ->
  exists (l : list slot) (vs : list (option Spinner.Label.t))
         (it : slot) (p : Point.t),
    s' !! d = Some l
    /\ Spinner.labels (Spinner.iconPositions cos sin PI size tapered) l
       = Some vs
    /\ List.length vs = 8%nat
    /\ l !! i = Some it
    /\ Spinner.iconPositions cos sin PI size tapered !! i = Some p
    /\ vs !! i
       = Some (match Spinner.shown_label it with
               | Some t => Some {| Spinner.Label.left := Point.x p - 12;
                                   Spinner.Label.top := Point.y p - 12;
                                   Spinner.Label.text := t |}
               | None => None
               end)
    /\ Spinner.labels (Spinner.iconPositions cos sin PI size tapered)
         (l ++ [extra]) = None.
Proof.
  intros Hs Hd Hi Hex.
  pose proof (data_result s items l0 d s' Hs Hd) as Hl.
  pose proof (length_take_padded l0) as Hlen.
  set (l := take 8 (padded l0)) in *.
  set (pos := Spinner.iconPositions cos sin PI size tapered).
  assert (Hpos : List.length pos = 8%nat) by reflexivity.
  destruct (labels_from_spec pos l 0) as (vs & Hvs & Hvl & Hget); [lia|].
  destruct (lookup_lt_is_Some_2 l i) as [it Hit]; [lia|].
  destruct (Hget i it Hit) as (p & Hp & Hv). cbn [Nat.add] in Hp, Hv.
  rewrite (label_at_in_range pos it i p Hp) in Hv.
  exists l, vs, it, p.
  split; [exact Hl|]. split; [exact Hvs|]. split; [lia|].
  split; [exact Hit|]. split; [exact Hp|]. split; [now rewrite <- Hv|].
  apply labels_from_overflow; [exact Hex | lia].
Qed.

Lemma labels_after_data_witness :
  exists (l : list slot) (vs : list (option Spinner.Label.t))
         (it : slot) (p : Point.t),
    <[2%nat := [Some item_k; None; Some item_bag; None; None; None; None; None]]>
      (<[1%nat := [Some item_k; None; Some item_bag; None; None; None; None; None]]>
         ({[ 0%nat := [Some item_k; None; Some item_bag] ]} : store)) !! 2%nat
    = Some l
    /\ Spinner.labels (Spinner.iconPositions (fun _ => 1) (fun _ => 0) 3 260 true) l
       = Some vs
    /\ List.length vs = 8%nat
    /\ l !! 2%nat = Some it
    /\ Spinner.iconPositions (fun _ => 1) (fun _ => 0) 3 260 true !! 2%nat = Some p
    /\ vs !! 2%nat
       = Some (match Spinner.shown_label it with
               | Some t => Some {| Spinner.Label.left := Point.x p - 12;
                                   Spinner.Label.top := Point.y p - 12;
                                   Spinner.Label.text := t |}
               | None => None
               end)
    /\ Spinner.labels (Spinner.iconPositions (fun _ => 1) (fun _ => 0) 3 260 true)
         (l ++ [Some item_bag]) = None.
Proof.
  apply (labels_after_data (fun _ => 1) (fun _ => 0) 3 260 true
           {[ 0%nat := [Some item_k; None; Some item_bag] ]} 0%nat
           [Some item_k; None; Some item_bag] 2%nat _ 2 (Some item_bag)).
  - reflexivity.
  - vm_compute. reflexivity.
  - lia.
  - discriminate.
Defined.

(** ** Points on a circle *)



(** ** The wheel of [LiquedGalas.tsx] *)

(** At the default size the inner radius is the binary64 product
    [130 * 0.58], just below 75.4. *)
Example lg_inner_radius_260 :
  LiquedGalas.radius 260 == 130
  /\ LiquedGalas.innerRadius 260 == 5305803310995865 # 70368744177664
  /\ LiquedGalas.innerRadius 260 < 75.4
  /\ ~ LiquedGalas.innerRadius 260 == Js.lit 75.4.
Proof.
  split; [reflexivity|]. split; [reflexivity|].
  split; [reflexivity|]. vm_compute. discriminate.
Qed.

(** X17 — the wheel of [LiquedGalas.tsx] has 8 closed donut slices
    drawn without gap and without inset: slice [i] starts at [i * 45]
    and ends where the next starts, from 0 to 360, its arcs have the
    radii [radius - 4] and [innerRadius] as the component computes them,
    and both are minor arcs. *)
Theorem lg_slices_tile (cos sin : Q -> Q) (PI size : Q) (i : nat) :
  (i < 8)%nat ->
  List.length (LiquedGalas.slices cos sin PI size) = 8%nat
  /\ LiquedGalas.slices cos sin PI size !! i
     = Some (LiquedGalas.slice_at cos sin PI size i)
  /\ closed (path (LiquedGalas.slice_at cos sin PI size i)) = true
  /\ arc_radii (path (LiquedGalas.slice_at cos sin PI size i))
     = [(LiquedGalas.radius size [-] 4, LiquedGalas.radius size [-] 4);
        (LiquedGalas.innerRadius size, LiquedGalas.innerRadius size)]
  /\ arc_flags (path (LiquedGalas.slice_at cos sin PI size i))
     = [(0%Z, 0%Z); (0%Z, 1%Z)]
  /\ LiquedGalas.start i == num i * 45
  /\ LiquedGalas.end_ i == LiquedGalas.start (S i)
  /\ LiquedGalas.start 0 == 0
  /\ LiquedGalas.end_ 7 == 360.
Proof.
  intros Hi.
  split; [reflexivity|].
  split.
  { change (LiquedGalas.slices cos sin PI size)
      with (map (LiquedGalas.slice_at cos sin PI size) (seq 0 8)).
    rewrite lookup_map_seq. now destruct (Nat.ltb_spec i 8); [|lia]. }
  split; [reflexivity|]. split; [reflexivity|].
  unfold LiquedGalas.slice_at, LiquedGalas.donutSlicePath.
  cbn [path arc_flags flat_map app].
  do 8 (destruct i as [|i]; [repeat split; reflexivity|]). lia.
Qed.

Lemma lg_slices_tile_witness :
  List.length (LiquedGalas.slices (fun _ => 1) (fun _ => 0) 3 260) = 8%nat
  /\ LiquedGalas.slices (fun _ => 1) (fun _ => 0) 3 260 !! 7%nat
     = Some (LiquedGalas.slice_at (fun _ => 1) (fun _ => 0) 3 260 7)
  /\ closed (path (LiquedGalas.slice_at (fun _ => 1) (fun _ => 0) 3 260 7))
     = true
  /\ arc_radii (path (LiquedGalas.slice_at (fun _ => 1) (fun _ => 0) 3 260 7))
     = [(LiquedGalas.radius 260 [-] 4, LiquedGalas.radius 260 [-] 4);
        (LiquedGalas.innerRadius 260, LiquedGalas.innerRadius 260)]
  /\ arc_flags (path (LiquedGalas.slice_at (fun _ => 1) (fun _ => 0) 3 260 7))
     = [(0%Z, 0%Z); (0%Z, 1%Z)]
  /\ LiquedGalas.start 7 == num 7 * 45
  /\ LiquedGalas.end_ 7 == LiquedGalas.start 8
  /\ LiquedGalas.start 0 == 0
  /\ LiquedGalas.end_ 7 == 360.
Proof.
  apply (lg_slices_tile (fun _ => 1) (fun _ => 0) 3 260 7). lia.
Defined.

(** ** The glass card *)

(** X18 — the glass card keeps gutters of 16 points and is capped: it
    is never wider than 640 nor than the window less 32, it is 640
    exactly for windows at least 672 wide and the window less 32 exactly
    for windows at most 672 wide. *)
Theorem card_width_gutters (width : Q) :
  GlassCard.CARD_WIDTH width <= 640
  /\ GlassCard.CARD_WIDTH width + 32 <= width
  /\ (GlassCard.CARD_WIDTH width == 640 <-> 672 <= width)
  /\ (GlassCard.CARD_WIDTH width == width - 32 <-> width <= 672).
Proof.
  unfold GlassCard.CARD_WIDTH.
  destruct (min_cases (width - 32) 640) as [[H ->]|[H ->]];
    repeat split; intros; lra.
Qed.

Lemma round_near (x : Q) :
  x - (1 # 2) < inject_Z (Js.round x) /\ inject_Z (Js.round x) <= x + (1 # 2).
Proof.
  unfold Js.round.
  pose proof (Qfloor_le (x + (1 # 2))) as H1.
  pose proof (Qlt_floor (x + (1 # 2))) as H2.
  rewrite inject_Z_plus in H2. change (inject_Z 1) with 1 in H2.
  split; lra.
Qed.

Lemma round_ge (x : Q) (n : Z) :
  inject_Z n <= inject_Z (Js.round x) <-> inject_Z n - (1 # 2) <= x.
Proof.
  unfold Js.round. split; intros H.
  - pose proof (Qfloor_le (x + (1 # 2))). lra.
  - rewrite <- Zle_Qle. rewrite <- (Qfloor_Z n).
    apply Qfloor_resp_le. lra.
Qed.

(** The product [width * 0.06] is rounded before [Math.round] sees it:
    for the window width 141.66666666666666 it is exactly 8.5, a tie,
    and the corner radius is 9, although 6% of that width is below
    8.5. *)
Example card_edge_tie :
  Js.lit 141.66666666666666 * 0.06 < 8.5
  /\ Js.lit 141.66666666666666 [*] Js.lit 0.06 == 8.5
  /\ GlassCard.edge (Js.lit 141.66666666666666) == 9.
Proof. split; [reflexivity|]. split; reflexivity. Qed.

(** X19 — the corner radius of the card is a whole number, at most 24
    and at most half a point above the product [width * 0.06] that the
    component computes; it is 24 exactly when that product is at least
    23.5, and below that it is less than half a point under the
    product. *)
Theorem card_edge_capped (width : Q) :
  GlassCard.edge width <= 24
  /\ (exists n : Z, GlassCard.edge width == inject_Z n)
  /\ GlassCard.edge width <= width [*] Js.lit 0.06 + (1 # 2)
  /\ (GlassCard.edge width == 24 <-> 23.5 <= width [*] Js.lit 0.06)
  /\ (width [*] Js.lit 0.06 - (1 # 2) < GlassCard.edge width
      \/ 23.5 <= width [*] Js.lit 0.06).
Proof.
  unfold GlassCard.edge. generalize (width [*] Js.lit 0.06). intros p.
  destruct (round_near p) as [Hlo Hhi].
  pose proof (round_ge p 24) as Hge.
  change (inject_Z 24) with 24 in Hge. destruct Hge as [Hge1 Hge2].
  destruct (min_cases 24 (inject_Z (Js.round p))) as [[H ->]|[H ->]].
  - pose proof (Hge1 H) as Hx.
    split; [lra|]. split; [exists 24%Z; reflexivity|].
    split; [lra|]. split; [split; intros _; [lra | reflexivity]|].
    right. lra.
  - split; [lra|]. split; [eexists; reflexivity|].
    split; [lra|]. split; [|left; lra].
    split; intros Hx; [lra|].
    assert (Hr : 24 <= inject_Z (Js.round p)) by (apply Hge2; lra).
    lra.
Qed.

(** ** The home screen *)

(** X20 — on the home screen, for each of the four filters: the grid
    shows every card for "All Videos" and otherwise exactly the cards
    whose title is the filter's label; it is never empty; and exactly
    one chip is active. *)
Theorem filter_shows_titled_card (f : string) :
  In f HomeScreen.FILTERS ->
  HomeScreen.filteredCards f
  = (if String.eqb f "All Videos"
     then HomeScreen.FEATURE_CARDS
     else List.filter (fun c => String.eqb (HomeScreen.title c) f)
            HomeScreen.FEATURE_CARDS)
  /\ HomeScreen.filteredCards f <> []
  /\ List.length (List.filter (fun b : bool => b) (HomeScreen.chips_active f))
     = 1%nat.
Proof.
  intros [<-|[<-|[<-|[<-|[]]]]]; repeat split; discriminate.
Qed.

Lemma filter_shows_titled_card_witness :
  HomeScreen.filteredCards "Photos"
  = (if String.eqb "Photos" "All Videos"
     then HomeScreen.FEATURE_CARDS
     else List.filter (fun c => String.eqb (HomeScreen.title c) "Photos")
            HomeScreen.FEATURE_CARDS)
  /\ HomeScreen.filteredCards "Photos" <> []
  /\ List.length (List.filter (fun b : bool => b)
                    (HomeScreen.chips_active "Photos"))
     = 1%nat.
Proof.
  apply (filter_shows_titled_card "Photos"). simpl. tauto.
Defined.
